(** * hscommon.testutil: a shallow embedding and its properties

    The Python module [testutil.py] offers a call-recording GUI double
    ([CallLogger]), a reversible attribute patcher ([Patcher]) with a
    "freeze today's date" helper, and an argument-unification routine
    ([_unify_args]).  Each of them is translated below into an executable
    Rocq definition; the theorems at the end of the file relate those
    definitions to the statements of the specification. *)

From stdpp Require Import gmap strings list fin_maps sorting.
From Stdlib Require Import ZArith Floats Uint63.

Local Open Scope string_scope.
Local Open Scope list_scope.
Local Open Scope nat_scope.

(** ** Exceptions and the state-and-exception monad

    Python methods mutate [self] and either return or raise.  A method body
    is a function from the state before the call to an outcome and the state
    the call leaves behind; a raised exception keeps the mutations done
    before the [raise] (there is no rollback in Python). *)

Inductive exn : Type :=
  | AssertionError
  | ValueError
  | KeyError (key : string)
  | AttributeError (attrname : string)
  | TypeError.

Inductive outcome (A : Type) : Type :=
  | Returns (a : A)
  | Raises (e : exn).
Arguments Returns {A} a.
Arguments Raises {A} e.

Definition M (S A : Type) : Type := S → outcome A * S.

Definition ret {S A} (a : A) : M S A := λ s, (Returns a, s).

Definition bind {S A B} (m : M S A) (k : A → M S B) : M S B :=
  λ s, match m s with
       | (Returns a, s') => k a s'
       | (Raises e, s') => (Raises e, s')
       end.

Definition raise {S A} (e : exn) : M S A := λ s, (Raises e, s).

Definition gets {S A} (f : S → A) : M S A := λ s, (Returns (f s), s).

Definition modify {S} (f : S → S) : M S unit := λ s, (Returns tt, f s).

Definition lift {S A} (r : outcome A) : M S A := λ s, (r, s).

(** The [assert] statement. *)
Definition assert_ {S} (b : bool) : M S unit :=
  if b then ret tt else raise AssertionError.

Declare Scope py_scope.
Delimit Scope py_scope with py.
Notation "x ← m ; k" := (bind m (λ x, k))
  (at level 20, m at level 100, k at level 200, only parsing) : py_scope.
Notation "m ;; k" := (bind m (λ _, k))
  (at level 100, k at level 200, right associativity) : py_scope.

(** [for x in xs: body(x)] *)
Fixpoint for_ {S A} (xs : list A) (body : A → M S unit) : M S unit :=
  match xs with
  | [] => ret tt
  | x :: xs' => (body x;; for_ xs' body)%py
  end.

(** A call passes when it returns; it fails when it raises. *)
Definition passes {S A} (r : outcome A * S) : Prop :=
  match r.1 with Returns _ => True | Raises _ => False end.

(** ** Python objects handed to the call logger

    [expected] and [not_expected] are "iterables of strings".  Lists, tuples
    and sets are told apart because Python's [==] does: a list never equals
    a tuple or a set, whatever they hold. *)

Inductive pyobj : Type :=
  | PyList (xs : list string)
  | PyTuple (xs : list string)
  | PySet (s : gset string).

(** [a == b] *)
Definition py_eq (a b : pyobj) : bool :=
  match a, b with
  | PyList xs, PyList ys => bool_decide (xs = ys)
  | PyTuple xs, PyTuple ys => bool_decide (xs = ys)
  | PySet s, PySet t => bool_decide (s = t)
  | _, _ => false
  end.

(** [for x in a]: the elements in iteration order. *)
Definition py_iter (a : pyobj) : list string :=
  match a with
  | PyList xs | PyTuple xs => xs
  | PySet s => elements s
  end.

(** [set(a)] *)
Definition py_set (a : pyobj) : gset string :=
  match a with
  | PyList xs | PyTuple xs => list_to_set xs
  | PySet s => s
  end.

(** [l.index(x)]: position of the first occurrence, [ValueError] if none. *)
Fixpoint list_index (l : list string) (x : string) : option nat :=
  match l with
  | [] => None
  | y :: l' => if decide (y = x) then Some 0 else S <$> list_index l' x
  end.

(** [eq_(a, b)]: [assert a == b]. *)
Definition eq_ {S} (a b : pyobj) : M S unit := assert_ (py_eq a b).

(** ** CallLogger *)

Module CallLogger.

Local Open Scope py_scope.

Record t : Type := mk { calls : list string }.

Definition __init__ : t := mk [].

(** Calling [self.func_name] with any arguments: the callable that
    [__getattr__] hands out appends the name and drops the arguments. *)
Definition __getattr__ (func_name : string) : M t unit :=
  modify (λ self, mk (calls self ++ [func_name])).

Definition clear_calls : M t unit :=
  modify (λ _, mk []).

Definition check_gui_calls (expected : pyobj) (verify_order : bool) : M t unit :=
  self_calls ← gets calls;
  (if verify_order then
     eq_ (PyList self_calls) expected
   else
     eq_ (PySet (py_set (PyList self_calls))) (PySet (py_set expected)));;
  clear_calls.

(** The body of [for call in expected] with its running [max_index]. *)
Fixpoint check_order (expected : list string) (max_index : nat) : M t unit :=
  match expected with
  | [] => ret tt
  | call :: expected' =>
      self_calls ← gets calls;
      match list_index self_calls call with
      | None => raise ValueError
      | Some index =>
          if decide (index < max_index) then raise AssertionError
          else check_order expected' index
      end
  end.

Definition check_gui_calls_partial
    (expected not_expected : option pyobj) (verify_order : bool) : M t unit :=
  (match expected with
   | Some expected =>
       self_calls ← gets calls;
       let not_called := py_set expected ∖ py_set (PyList self_calls) in
       assert_ (bool_decide (not_called = ∅));;
       if verify_order then check_order (py_iter expected) 0 else ret tt
   | None => ret tt
   end);;
  (match not_expected with
   | Some not_expected =>
       self_calls ← gets calls;
       let called := py_set not_expected ∩ py_set (PyList self_calls) in
       assert_ (bool_decide (called = ∅))
   | None => ret tt
   end);;
  clear_calls.

(** The log of a fresh logger after calls of the methods [names], for
    names that reach [__getattr__]: Python calls it only for a name that
    the object and its class do not bind (see [reaches_getattr]). *)
Definition record (names : list string) : t :=
  foldl (λ self name, (__getattr__ name self).2) __init__ names.

End CallLogger.

(** The specification's wording of the partial check, to be compared with
    [CallLogger.check_gui_calls_partial]: the first-occurrence indices of
    consecutive expected names never decrease. *)
Definition first_index_nondecreasing (calls expected : list string) : Prop :=
  ∀ i x y ix iy,
    expected !! i = Some x → expected !! S i = Some y →
    list_index calls x = Some ix → list_index calls y = Some iy →
    ix ≤ iy.

Definition spec_partial_passes (calls : list string)
    (expected not_expected : option pyobj) (verify_order : bool) : Prop :=
  (∀ e, expected = Some e →
        (∀ x, x ∈ py_iter e → x ∈ calls) ∧
        (verify_order = true → first_index_nondecreasing calls (py_iter e))) ∧
  (∀ ne, not_expected = Some ne → ∀ x, x ∈ py_iter ne → x ∉ calls).

(** ** Argument unification *)

(** The Python values that travel through [_unify_args]: it never looks
    inside them, except that a bound method's receiver is compared with
    [None] and that the positional tuple itself becomes a value. *)
#[warnings="-register-all"] Inductive value : Type :=
  | VNone
  | VInt (z : Z)
  | VStr (s : string)
  | VTuple (vs : list value)
  | VObj (id : nat).

Definition is_none (v : value) : bool :=
  match v with VNone => true | _ => false end.

Module Unify.

(** [func.__code__]: the number of declared positional parameters and the
    names of all local variables, parameters first. *)
Record code : Type := { co_argcount : nat; co_varnames : list string }.

(** What [_unify_args] reads of a callable.  [__code__ = None] stands for
    a callable without that attribute (a built-in); [__defaults__ = None]
    for a function without default values; [__self__ = None] for a
    callable without that attribute. *)
Record callable : Type := {
  __code__ : option code;
  __defaults__ : option (list value);
  __self__ : option value
}.

(** [d.setdefault(k, v)] *)
Definition setdefault (k : string) (v : value) (d : gmap string value)
  : gmap string value :=
  match d !! k with
  | Some _ => d
  | None => <[k := v]> d
  end.

(** [for arg_name, arg in kvs: result.setdefault(arg_name, arg)] *)
Definition fill (result : gmap string value) (kvs : list (string * value))
  : gmap string value :=
  foldl (λ result '(arg_name, arg), setdefault arg_name arg result) result kvs.

(** [l[-n:]] for [n > 0]: the last [n] elements, the whole list when it
    is shorter than [n]. *)
Definition slice_last {A} (n : nat) (l : list A) : list A :=
  drop (length l - n) l.

(** [for kw in args_to_ignore: del result[kw]] *)
Fixpoint del_keys (kws : list string) (result : gmap string value)
  : outcome (gmap string value) :=
  match kws with
  | [] => Returns result
  | kw :: kws' =>
      match result !! kw with
      | Some _ => del_keys kws' (delete kw result)
      | None => Raises (KeyError kw)
      end
  end.

Definition _unify_args (func : callable) (args : list value)
    (kwargs : gmap string value) (args_to_ignore : option (list string))
  : outcome (gmap string value) :=
  let result := kwargs in
  let result :=
    match __code__ func with
    | Some func_code =>
        let args :=
          match __self__ func with
          | Some self => if is_none self then args else self :: args
          | None => args
          end in
        let defaults := default [] (__defaults__ func) in
        let arg_count := co_argcount func_code in
        let arg_names := co_varnames func_code in
        let args :=
          if decide (length args < arg_count) then
            let required_arg_count := arg_count - length args in
            args ++ slice_last required_arg_count defaults
          else args in
        fill result (zip arg_names args)
    | None => <["args" := VTuple args]> result
    end in
  match args_to_ignore with
  | Some ((_ :: _) as kws) => del_keys kws result
  | _ => Returns result
  end.

(** [def foo(bar, baz=10)] *)
Definition foo : callable :=
  {| __code__ := Some {| co_argcount := 2; co_varnames := ["bar"; "baz"] |};
     __defaults__ := Some [VInt 10];
     __self__ := None |}.

(** [def f(a, b=1, c=2)] *)
Definition f_abc : callable :=
  {| __code__ := Some {| co_argcount := 3; co_varnames := ["a"; "b"; "c"] |};
     __defaults__ := Some [VInt 1; VInt 2];
     __self__ := None |}.

(** A callable without [__code__], such as a built-in. *)
Definition opaque : callable :=
  {| __code__ := None; __defaults__ := None; __self__ := None |}.

End Unify.

(** ** Calendar dates

    [patch_today] builds a [datetime.date] and subtracts two of them.  The
    definitions below follow the proleptic Gregorian ordinal of Python's
    [datetime] module: the constructor validates its fields, and the
    difference of two dates is a [timedelta] whose [days] is the difference
    of their ordinals. *)

Record date : Type := { year : Z; month : Z; day : Z }.

Definition is_leap (y : Z) : bool :=
  ((y mod 4 =? 0) && (negb (y mod 100 =? 0) || (y mod 400 =? 0)))%Z.

Definition days_in_month (y m : Z) : Z :=
  (if m =? 2 then (if is_leap y then 29 else 28)
   else if (m =? 4) || (m =? 6) || (m =? 9) || (m =? 11) then 30
   else 31)%Z.

Definition days_before_year (y : Z) : Z :=
  (let y' := y - 1 in y' * 365 + y' / 4 - y' / 100 + y' / 400)%Z.

Fixpoint days_before_month_aux (y : Z) (m : nat) : Z :=
  match m with
  | O => 0
  | S m' => days_before_month_aux y m' + days_in_month y (Z.of_nat m)
  end%Z.

(** Days of the year [y] that precede the first day of month [m]. *)
Definition days_before_month (y m : Z) : Z :=
  days_before_month_aux y (Z.to_nat (m - 1)).

Definition toordinal (d : date) : Z :=
  (days_before_year (year d) + days_before_month (year d) (month d) + day d)%Z.

(** [datetime.date(year, month, day)] *)
Definition date_new (y m d : Z) : outcome date :=
  if ((1 <=? y) && (y <=? 9999) && (1 <=? m) && (m <=? 12)
      && (1 <=? d) && (d <=? days_in_month y m))%Z
  then Returns {| year := y; month := m; day := d |}
  else Raises ValueError.

(** [(a - b).days] *)
Definition timedelta_days (a b : date) : Z := (toordinal a - toordinal b)%Z.

(** The conversion Python applies to the [int] operand of [float - int];
    exact for the magnitudes a difference of dates can reach. *)
Definition float_of_Z (z : Z) : float :=
  if (z <? 0)%Z then PrimFloat.opp (PrimFloat.of_uint63 (Uint63.of_Z (- z)))
  else PrimFloat.of_uint63 (Uint63.of_Z z).

(** ** Patcher

    Attribute values are object references and [is] is equality of
    references.  Every patch target owns a namespace, its [__dict__], kept in
    insertion order as Python dictionaries are.  The callables that can be
    bound to [time.time] live in a table of function objects. *)

Module Patcher.

Local Open Scope py_scope.

Definition ref : Type := nat.

Abbreviation namespace := (list (string * ref)).

Fixpoint ns_get (a : string) (d : namespace) : option ref :=
  match d with
  | [] => None
  | (k, v) :: d' => if decide (k = a) then Some v else ns_get a d'
  end.

(** Assignment keeps the position of a key that is already bound and
    appends a new one. *)
Fixpoint ns_set (a : string) (v : ref) (d : namespace) : namespace :=
  match d with
  | [] => [(a, v)]
  | (k, x) :: d' =>
      if decide (k = a) then (k, v) :: d' else (k, x) :: ns_set a v d'
  end.

(** The real [time.time] and the closures [patch_today] creates:
    [lambda: time_now - (delta.days * 24 * 60 * 60)] with its two captured
    variables. *)
Inductive function_obj : Type :=
  | BuiltinTime
  | Lambda (time_now : float) (delta_days : Z).

Record t : Type := {
  _patched : list (ref * string * ref);
  _patched_osstat : gmap string (list Z);
  _target_module : option ref
}.

(** The interpreter state a Patcher method works on: the Patcher itself,
    the namespaces of all objects, the function objects, the next unused
    object identity and the real wall clock. *)
Record state : Type := {
  self : t;
  attrs : gmap ref namespace;
  functions : gmap ref function_obj;
  next_ref : ref;
  clock : float
}.

Definition with_self (p : t) (s : state) : state :=
  {| self := p; attrs := attrs s; functions := functions s;
     next_ref := next_ref s; clock := clock s |}.

Definition with_attrs (h : gmap ref namespace) (s : state) : state :=
  {| self := self s; attrs := h; functions := functions s;
     next_ref := next_ref s; clock := clock s |}.

Definition with_clock (now : float) (s : state) : state :=
  {| self := self s; attrs := attrs s; functions := functions s;
     next_ref := next_ref s; clock := now |}.

Definition lookup_attr (h : gmap ref namespace) (target : ref)
    (attrname : string) : option ref :=
  h !! target ≫= ns_get attrname.

(** [getattr(target, attrname)] *)
Definition getattr (target : ref) (attrname : string) : M state ref :=
  λ s, match lookup_attr (attrs s) target attrname with
       | Some v => (Returns v, s)
       | None => (Raises (AttributeError attrname), s)
       end.

Definition write (target : ref) (attrname : string) (v : ref)
    (h : gmap ref namespace) : gmap ref namespace :=
  <[target := ns_set attrname v (default [] (h !! target))]> h.

(** [setattr(target, attrname, v)] *)
Definition setattr (target : ref) (attrname : string) (v : ref) : M state unit :=
  modify (λ s, with_attrs (write target attrname v (attrs s)) s).

Definition __init__ (target_module : option ref) : t :=
  {| _patched := []; _patched_osstat := ∅; _target_module := target_module |}.

Definition append_patched (rec : ref * string * ref) : M state unit :=
  modify (λ s, with_self
                 {| _patched := _patched (self s) ++ [rec];
                    _patched_osstat := _patched_osstat (self s);
                    _target_module := _target_module (self s) |} s).

(** The loop of [patch] over the names bound in the target module: it
    visits the keys the module has when the loop starts and reads each value
    when it reaches the key. *)
Definition scan (self_patch : ref → string → ref → M state unit)
    (target_module oldvalue replace_with : ref) (keys : list string)
  : M state unit :=
  for_ keys (λ key,
    value ← getattr target_module key;
    if decide (value = oldvalue)
    then self_patch target_module key replace_with
    else ret tt).

(** The body of [patch]; [self_patch] is what the recursive call
    [self.patch(...)] runs. *)
Definition patch_body (self_patch : ref → string → ref → M state unit)
    (target : ref) (attrname : string) (replace_with : ref) : M state unit :=
  oldvalue ← getattr target attrname;
  append_patched (target, attrname, oldvalue);;
  setattr target attrname replace_with;;
  target_module ← gets (λ s, _target_module (self s));
  match target_module with
  | Some target_module =>
      if decide (target_module ≠ target) then
        keys ← gets (λ s, (default [] (attrs s !! target_module)).*1);
        scan self_patch target_module oldvalue replace_with keys
      else ret tt
  | None => ret tt
  end.

Fixpoint patch_depth (depth : nat) (target : ref) (attrname : string)
    (replace_with : ref) : M state unit :=
  match depth with
  | O => raise TypeError
  | S depth' => patch_body (patch_depth depth') target attrname replace_with
  end.

(** The recursive call patches the target module itself, so it never
    recurses again: two levels are all [patch] can reach (see
    [patch_unfold]). *)
Definition patch : ref → string → ref → M state unit := patch_depth 2.

Definition unpatch : M state unit :=
  patched ← gets (λ s, _patched (self s));
  for_ (reverse patched) (λ '(target, attrname, old_value),
    setattr target attrname old_value).

(** A run of attribute assignments, in order. *)
Definition writes (ws : list (ref * string * ref))
    (h : gmap ref namespace) : gmap ref namespace :=
  foldl (λ h '(target, attrname, v), write target attrname v h) h ws.

(** What [unpatch] makes of the namespaces, given the patch records. *)
Definition restore (patched : list (ref * string * ref))
    (h : gmap ref namespace) : gmap ref namespace :=
  writes (reverse patched) h.

(** [s'] is [s] after some more patches: the records are appended, undoing
    the new ones gives back the namespaces of [s], and nothing else moved. *)
Definition patched_from (s s' : state) : Prop :=
  functions s' = functions s ∧ next_ref s' = next_ref s ∧
  clock s' = clock s ∧
  _target_module (self s') = _target_module (self s) ∧
  _patched_osstat (self s') = _patched_osstat (self s) ∧
  ∃ recs, _patched (self s') = _patched (self s) ++ recs ∧
          restore recs (attrs s') = attrs s.

(** Between [s] and [s'] only attributes of [target] that already existed
    were assigned. *)
Definition only_touches (target : ref) (s s' : state) : Prop :=
  (∀ target', target' ≠ target → attrs s' !! target' = attrs s !! target') ∧
  (default [] (attrs s' !! target)).*1 = (default [] (attrs s !! target)).*1.

(** The state once a patch record is appended and the attribute assigned. *)
Definition after_patch (target : ref) (attrname : string)
    (oldvalue replace_with : ref) (s : state) : state :=
  (setattr target attrname replace_with
     (append_patched (target, attrname, oldvalue) s).2).2.

Definition __enter__ : M state t := gets self.

Definition __exit__ (exc : option exn) : M state bool :=
  unpatch;; ret false.

(** The [with] statement around a block: [__exit__] receives the exception
    the block raised, if any, and the exception propagates unless
    [__exit__] returns true. *)
Definition with_ (block : M state unit) : M state unit :=
  __enter__;;
  λ s, match block s with
       | (Returns _, s') => (__exit__ None;; ret tt) s'
       | (Raises e, s') =>
           match __exit__ (Some e) s' with
           | (Returns swallow, s'') =>
               if swallow then (Returns tt, s'') else (Raises e, s'')
           | (Raises e', s'') => (Raises e', s'')
           end
       end.

(** [with Patcher(target_module) as p: block] *)
Definition with_Patcher (target_module : option ref) (block : M state unit)
  : M state unit :=
  modify (with_self (__init__ target_module));; with_ block.

(** The [time] module. *)
Definition time_module : ref := 0.

(** Calling a function object. *)
Definition call (f : ref) : M state float :=
  fn ← gets (λ s, functions s !! f);
  match fn with
  | Some BuiltinTime => gets clock
  | Some (Lambda time_now delta_days) =>
      ret (PrimFloat.sub time_now (float_of_Z (delta_days * 24 * 60 * 60)))
  | None => raise TypeError
  end.

(** [time.time()] *)
Definition time_time : M state float :=
  f ← getattr time_module "time";
  call f.

(** Evaluating the [lambda] expression creates a new function object. *)
Definition new_lambda (time_now : float) (delta_days : Z) : M state ref :=
  λ s, (Returns (next_ref s),
        {| self := self s; attrs := attrs s;
           functions := <[next_ref s := Lambda time_now delta_days]> (functions s);
           next_ref := S (next_ref s); clock := clock s |}).

Section Today.

(** The local calendar: [datetime.date.fromtimestamp]. *)
Variable fromtimestamp : float → date.

(** [datetime.date.today()], that is [date.fromtimestamp(time.time())]. *)
Definition date_today : M state date :=
  now ← time_time;
  ret (fromtimestamp now).

Definition patch_today (year month day : Z) : M state unit :=
  new_today ← lift (date_new year month day);
  today ← date_today;
  time_now ← time_time;
  let delta := timedelta_days today new_today in
  f ← new_lambda time_now delta;
  patch time_module "time" f.

End Today.

(** A small world for examples: the [time] module binds [time] to the
    real clock function, object 5 binds [x] to object 10, and the Patcher is
    new. *)
Definition example_state : state :=
  {| self := __init__ None;
     attrs := {[ time_module := [("time", 1)]; 5 := [("x", 10)] ]};
     functions := {[ 1 := BuiltinTime ]};
     next_ref := 20;
     clock := 1583064000.5%float |}.

(** The state after a list of [patch] calls, while they all return. *)
Fixpoint patch_all (calls : list (ref * string * ref)) : M state unit :=
  match calls with
  | [] => ret tt
  | (target, attrname, replace_with) :: calls' =>
      patch target attrname replace_with;; patch_all calls'
  end.

End Patcher.

(** ** try/finally and the decorators built on the Patcher *)

(** [try: body finally: fin]: [fin] runs whatever [body] did; the outcome is
    the one of [body] unless [fin] raises itself. *)
Definition try_finally {S A} (body : M S A) (fin : M S unit) : M S A :=
  λ s, match body s with
       | (r, s') =>
           match fin s' with
           | (Returns _, s'') => (r, s'')
           | (Raises e, s'') => (Raises e, s'')
           end
       end.

Module Decorators.

Local Open Scope py_scope.

Import Patcher.

(** The module-level [patch_today(year, month, day)] applied to a test
    [func]: the wrapper makes a Patcher of its own, patches the date, runs
    [func] and unpatches in the [finally] clause. *)
Definition patch_today (fromtimestamp : float → date) (year month day : Z)
    {A} (func : M state A) : M state A :=
  try_finally
    (modify (with_self (__init__ None));;
     Patcher.patch_today fromtimestamp year month day;;
     func)
    unpatch.

Section WithApp.

(** The application objects and the test [isinstance(app, TestApp)]. *)
Context {App : Type}.
Variable is_TestApp : App → bool.

(** What [appfunc()] returns: an application, or a pair of an application
    and a patcher; the patcher of the pair is [None] or the Patcher of the
    state. *)
Inductive appresult : Type :=
  | JustApp (app : App)
  | AppAndPatcher (app : App) (with_patcher : bool).

(** The wrapper [with_app(appfunc)(func)]; it returns [None], whatever
    [func] returns. *)
Definition with_app (appfunc : M state appresult) {A} (func : App → M state A)
  : M state unit :=
  appresult ← appfunc;
  let '(app, patcher) :=
    match appresult with
    | AppAndPatcher app patcher => (app, patcher)
    | JustApp app => (app, false)
    end in
  assert_ (is_TestApp app);;
  try_finally (func app) (if patcher then unpatch else ret tt);;
  ret tt.

End WithApp.

End Decorators.

(** ** log_calls *)

Module LogCalls.

Local Open Scope py_scope.

Section Wrapper.

(** The state [func] itself works on. *)
Context {S : Type}.

(** [wrapper.calls] and the state of the wrapped function. *)
Record state : Type := { calls : list (gmap string value); world : S }.

(** What [_unify_args] reads of [func], and what calling [func] does. *)
Variable func_info : Unify.callable.
Variable func : list value → gmap string value → M S value.

Definition append_call (unifiedArgs : gmap string value) : M state unit :=
  modify (λ w, {| calls := calls w ++ [unifiedArgs]; world := world w |}).

(** Running the wrapped function on its own state. *)
Definition call_func (args : list value) (kwargs : gmap string value)
  : M state value :=
  λ w, match func args kwargs (world w) with
       | (r, s') => (r, {| calls := calls w; world := s' |})
       end.

(** The wrapper that [log_calls(func)] returns, called with the positional
    arguments [args] and the keyword arguments [kwargs]. *)
Definition wrapper (args : list value) (kwargs : gmap string value)
  : M state value :=
  unifiedArgs ← lift (Unify._unify_args func_info args kwargs None);
  append_call unifiedArgs;;
  call_func args kwargs.

(** A run of calls of the wrapper that all return. *)
Fixpoint wrapper_all (invocations : list (list value * gmap string value))
  : M state unit :=
  match invocations with
  | [] => ret tt
  | (args, kwargs) :: rest => wrapper args kwargs;; wrapper_all rest
  end.

End Wrapper.

End LogCalls.

(** ** patch_osstat *)

Module OsStat.

Local Open Scope py_scope.

(** The ten fields handed to [os.stat_result], in order. *)
Record stat_fields : Type := {
  st_mode : Z; st_ino : Z; st_dev : Z; st_nlink : Z; st_uid : Z;
  st_gid : Z; st_size : Z; st_atime : Z; st_mtime : Z; st_ctime : Z
}.

(** The default values of the keyword parameters. *)
Definition defaults : stat_fields :=
  {| st_mode := 16877; st_ino := 742635; st_dev := 234881026; st_nlink := 51;
     st_uid := 501; st_gid := 20; st_size := 1734; st_atime := 1257942648;
     st_mtime := 1257873561; st_ctime := 1257873561 |}.

Definition st_seq (st : stat_fields) : list Z :=
  [st_mode st; st_ino st; st_dev st; st_nlink st; st_uid st; st_gid st;
   st_size st; st_atime st; st_mtime st; st_ctime st].

(** What can be bound to [os.stat]: the real function, or a [fake_osstat]
    closure with the [old_osstat] it captured. *)
Inductive stat_fun : Type :=
  | RealStat
  | FakeStat (old_osstat : stat_fun).

(** The [_patched_osstat] attribute of the monkeypatch object, [None] when
    the object has no such attribute, and the binding of [os.stat]. *)
Record state : Type := {
  _patched_osstat : option (gmap string (list Z));
  os_stat : stat_fun
}.

Section Real.

(** The real [os.stat]. *)
Variable real_stat : string → outcome (list Z).

(** Calling what is bound to [os.stat]; [fake_osstat] reads the dictionary
    of the monkeypatch object when it is called. *)
Fixpoint call_stat (f : stat_fun) (path_str : string) : M state (list Z) :=
  match f with
  | RealStat => lift (real_stat path_str)
  | FakeStat old_osstat =>
      d ← gets _patched_osstat;
      match d with
      | None => raise (AttributeError "_patched_osstat")
      | Some d =>
          match d !! path_str with
          | Some r => ret r
          | None => call_stat old_osstat path_str
          end
      end
  end.

(** [os.stat(path_str)] *)
Definition stat (path_str : string) : M state (list Z) :=
  f ← gets os_stat;
  call_stat f path_str.

(** [patch_osstat(monkeypatch, path, **fields)], with [str(path)] for
    [path]. *)
Definition patch_osstat (path : string) (st : stat_fields) : M state unit :=
  has ← gets (λ s, bool_decide (is_Some (_patched_osstat s)));
  (if negb has then
     modify (λ s, {| _patched_osstat := Some ∅;
                     os_stat := FakeStat (os_stat s) |})
   else ret tt);;
  d ← gets _patched_osstat;
  match d with
  | None => raise (AttributeError "_patched_osstat")
  | Some d =>
      modify (λ s, {| _patched_osstat := Some (<[path := st_seq st]> d);
                      os_stat := os_stat s |})
  end.

(** A run of [patch_osstat] calls. *)
Definition patch_all (ps : list (string * stat_fields)) : M state unit :=
  for_ ps (λ '(path, st), patch_osstat path st).

End Real.

End OsStat.

(** ** TestApp *)

(** [s.endswith(suffix)] *)
Definition endswith (s suffix : string) : bool :=
  bool_decide (String.list_ascii_of_string suffix
                 `suffix_of` String.list_ascii_of_string s).

(** Names of the form [__x__]; those that [object] and the class statement
    bind all have this form. *)
Definition is_dunder (name : string) : bool :=
  String.prefix "__" name && endswith name "__".

(** The attribute names of a [CallLogger] for which Python calls
    [__getattr__]: the names that the instance and the class do not bind.
    The instance binds [calls], the class binds its three methods, and every
    other bound name is of the form [__x__]; all names of that form are left
    out here, also those that nothing binds. *)
Definition reaches_getattr (name : string) : bool :=
  negb (bool_decide (name ∈ ["calls"; "clear_calls"; "check_gui_calls";
                              "check_gui_calls_partial"]))
  && negb (is_dunder name).

Module TestApp.

Local Open Scope py_scope.

Import Patcher.

(** The objects a test application works with: the namespace of every
    object, the call log of every object that is a [CallLogger], and the
    next unused object identity. *)
Record world : Type := {
  attrs : gmap ref namespace;
  loggers : gmap ref CallLogger.t;
  next_ref : ref
}.

(** [getattr(target, attrname)] *)
Definition getattr (target : ref) (attrname : string) : M world ref :=
  λ w, match lookup_attr (attrs w) target attrname with
       | Some v => (Returns v, w)
       | None => (Raises (AttributeError attrname), w)
       end.

(** [setattr(target, attrname, v)] *)
Definition setattr (target : ref) (attrname : string) (v : ref) : M world unit :=
  modify (λ w, {| attrs := write target attrname v (attrs w);
                  loggers := loggers w; next_ref := next_ref w |}).

(** [hasattr(gui, 'calls')]: a call logger has the attribute, any other
    object has it when its namespace binds the name. *)
Definition hasattr_calls (gui : ref) (w : world) : bool :=
  bool_decide (is_Some (loggers w !! gui))
  || bool_decide (is_Some (lookup_attr (attrs w) gui "calls")).

(** [dir(self)]: the attribute names, sorted. *)
Definition dir_ (self : ref) (w : world) : list string :=
  merge_sort String.le (default [] (attrs w !! self)).*1.

(** [CallLogger()] *)
Definition new_logger : M world ref :=
  λ w, (Returns (next_ref w),
        {| attrs := attrs w;
           loggers := <[next_ref w := CallLogger.__init__]> (loggers w);
           next_ref := S (next_ref w) |}).

Section Methods.

(** Calling an object that is not modelled further: what is bound to
    [clear_calls] on an object that is not a call logger. *)
Variable call_object : ref → M world unit.

(** [gui.clear_calls()] *)
Definition clear_calls_of (gui : ref) : M world unit :=
  logger ← gets (λ w, loggers w !! gui);
  match logger with
  | Some logger =>
      modify (λ w, {| attrs := attrs w;
                      loggers := <[gui := (CallLogger.clear_calls logger).2]> (loggers w);
                      next_ref := next_ref w |})
  | None =>
      method ← getattr gui "clear_calls";
      call_object method
  end.

Definition clear_gui_calls (self : ref) : M world unit :=
  names ← gets (dir_ self);
  for_ names (λ attr,
    if endswith attr "_gui" then
      gui ← getattr self attr;
      has ← gets (hasattr_calls gui);
      if has then clear_calls_of gui else ret tt
    else ret tt).

(** [make_gui]; [class_] is the constructor of the logic object. *)
Definition make_gui (self : ref) (name : string)
    (class_ : ref → ref → M world ref)
    (view parent holder : option ref) : M world ref :=
  view ← match view with Some view => ret view | None => new_logger end;
  parent ← match parent with Some parent => ret parent | None => getattr self "mw" end;
  let holder := default self holder in
  setattr holder (name +:+ "_gui") view;;
  gui ← class_ view parent;
  setattr holder name gui;;
  ret gui.

(** Calling a method [func_name] on the object [gui]: recorded when [gui]
    is a call logger. *)
Definition call_on_logger (gui : ref) (func_name : string) : M world unit :=
  modify (λ w, match loggers w !! gui with
               | Some logger =>
                   {| attrs := attrs w;
                      loggers := <[gui := (CallLogger.__getattr__ func_name logger).2]>
                                   (loggers w);
                      next_ref := next_ref w |}
               | None => w
               end).

End Methods.

(** A small application for examples: object 1 has the main window 4, the
    view 10 of [table], the object 5 itself and a test method 6 whose name
    ends in [_gui]; 10 and 11 are call loggers with one recorded call
    each, 11 being bound nowhere. *)
Definition example_world : world :=
  {| attrs := {[ 1 := [("mw", 4); ("table_gui", 10); ("table", 5);
                       ("test_gui", 6)] ]};
     loggers := {[ 10 := CallLogger.mk ["refresh"];
                   11 := CallLogger.mk ["show"] ]};
     next_ref := 20 |}.

End TestApp.

(** ** with_tmpdir *)

Module TmpDir.

(** What the wrapper ends with: the outcome of the wrapped function or of
    the clean-up, or the [UnboundLocalError] of the [finally] clause when
    its variable was never bound. *)
Inductive result (A : Type) : Type :=
  | Finished (r : outcome A)
  | UnboundLocalError (name : string).
Arguments Finished {A} r.
Arguments UnboundLocalError {A} name.

Section WithTmpdir.

(** The file system, the values passed to the test and its result. *)
Context {FS V K A : Type}.

(** [tempfile.mkdtemp] followed by [Path], and [io.exists] and [io.rmtree]
    of this repository. *)
Variable mkdtemp : M FS string.
Variable exists_ : string → M FS bool.
Variable rmtree : string → M FS unit.

(** A path as a value handed to the test. *)
Variable of_path : string → V.

(** The wrapper of [with_tmpdir(func)]. *)
Definition with_tmpdir (func : list V → K → M FS A)
    (args : list V) (kwargs : K) : FS → result A * FS :=
  λ fs,
    match mkdtemp fs with
    | (Raises e, fs1) => (UnboundLocalError "tmppath", fs1)
    | (Returns tmppath, fs1) =>
        let args := args ++ [of_path tmppath] in
        match func args kwargs fs1 with
        | (r, fs2) =>
            match exists_ tmppath fs2 with
            | (Returns true, fs3) =>
                match rmtree tmppath fs3 with
                | (Returns _, fs4) => (Finished r, fs4)
                | (Raises e, fs4) => (Finished (Raises e), fs4)
                end
            | (Returns false, fs3) => (Finished r, fs3)
            | (Raises e, fs3) => (Finished (Raises e), fs3)
            end
        end
    end.

End WithTmpdir.

End TmpDir.

(** * Properties *)

(** ** The call logger *)

Section CallLoggerProps.

Import CallLogger.

Implicit Types (self : CallLogger.t) (expected : pyobj) (xs : list string).

Lemma elem_of_py_set expected x : x ∈ py_set expected ↔ x ∈ py_iter expected.
Proof.
  destruct expected; simpl;
    [apply elem_of_list_to_set | apply elem_of_list_to_set | by rewrite elem_of_elements].
Qed.

Lemma record_calls xs : calls (record xs) = xs.
Proof.
  unfold record.
  enough (∀ self, calls (foldl (λ self name, (__getattr__ name self).2) self xs)
                  = calls self ++ xs) as H by apply H.
  induction xs as [|x xs IH]; intros self; simpl.
  - by rewrite app_nil_r.
  - rewrite IH. simpl. by rewrite <- app_assoc.
Qed.

Lemma list_index_elem xs x : x ∈ xs → ∃ i, list_index xs x = Some i.
Proof.
  induction xs as [|y xs IH]; intros Hin.
  - by apply elem_of_nil in Hin.
  - simpl. destruct (decide (y = x)) as [->|Hne]; [by eexists|].
    apply elem_of_cons in Hin as [->|Hin]; [done|].
    destruct (IH Hin) as [i ->]. by eexists.
Qed.

Lemma list_index_lookup xs x i : list_index xs x = Some i → xs !! i = Some x.
Proof.
  revert i. induction xs as [|y xs IH]; intros i; simpl; [done|].
  destruct (decide (y = x)) as [->|Hne].
  - by intros [= <-].
  - destruct (list_index xs x) as [j|] eqn:E; simpl; [|done].
    intros [= <-]. simpl. by apply IH.
Qed.

(** [list_index] really is the first occurrence. *)
Lemma list_index_first xs x i j :
  list_index xs x = Some i → j < i → xs !! j ≠ Some x.
Proof.
  revert i j. induction xs as [|y xs IH]; intros i j; simpl; [done|].
  destruct (decide (y = x)) as [->|Hne].
  - intros [= <-]. lia.
  - destruct (list_index xs x) as [k|] eqn:E; simpl; [|done].
    intros [= <-] Hlt. destruct j as [|j]; simpl.
    + congruence.
    + apply (IH k); [done | lia].
Qed.

(** The ordering loop never touches the log. *)
Lemma check_order_state xs m self : (check_order xs m self).2 = self.
Proof.
  revert m. induction xs as [|x xs IH]; intros m; simpl; [done|].
  unfold bind, gets; simpl.
  destruct (list_index (calls self) x) as [i|]; [|done].
  destruct (decide (i < m)); [done | apply IH].
Qed.

(** When every expected name was recorded, the loop passes exactly when the
    first-occurrence indices never decrease, starting from [m]. *)
Lemma check_order_passes xs m self :
  (∀ x, x ∈ xs → x ∈ calls self) →
  passes (check_order xs m self) ↔
    (∀ x ix, head xs = Some x → list_index (calls self) x = Some ix → m ≤ ix) ∧
    first_index_nondecreasing (calls self) xs.
Proof.
  revert m. induction xs as [|x xs IH]; intros m Hall.
  - simpl. unfold passes; simpl. split; [|done]. intros _. split; [done|].
    intros i ? ? ? ? Hi. by rewrite lookup_nil in Hi.
  - destruct (list_index_elem (calls self) x) as [ix Hix]; [apply Hall; left|].
    simpl. unfold bind, gets; simpl. rewrite Hix.
    destruct (decide (ix < m)) as [Hlt|Hge].
    + unfold passes; simpl. split; [done|]. intros [Hhd _].
      specialize (Hhd x ix eq_refl Hix). lia.
    + rewrite IH; [|intros y Hy; apply Hall; by right].
      split.
      * intros [Hhd Hnd]. split.
        { intros ? ? [= <-]. rewrite Hix. intros [= <-]. lia. }
        intros [|i] a b ia ib; simpl.
        { intros [= <-] Hb. rewrite Hix. intros [= <-] Hib.
          apply (Hhd b); [|done]. by destruct xs; simplify_eq/=. }
        apply Hnd.
      * intros [_ Hnd]. split.
        { intros y iy Hy Hiy. apply (Hnd 0 x y); simpl; try done.
          by destruct xs; simplify_eq/=. }
        intros i a b ia ib Ha Hb. by apply (Hnd (S i)).
Qed.

Lemma difference_empty_iff (X Y : gset string) : X ∖ Y = ∅ ↔ ∀ x, x ∈ X → x ∈ Y.
Proof.
  split.
  - intros H x Hx. destruct (decide (x ∈ Y)) as [|Hn]; [done|].
    exfalso. apply (not_elem_of_empty (C:=gset string) x). rewrite <- H.
    by apply elem_of_difference.
  - intros H. apply set_eq. intros x. rewrite elem_of_difference.
    split; [intros [Hx Hn]; by destruct Hn; apply H | by intros ?%not_elem_of_empty].
Qed.

Lemma intersection_empty_iff (X Y : gset string) : X ∩ Y = ∅ ↔ ∀ x, x ∈ X → x ∉ Y.
Proof.
  split.
  - intros H x Hx Hy. apply (not_elem_of_empty (C:=gset string) x). rewrite <- H.
    by apply elem_of_intersection.
  - intros H. apply set_eq. intros x. rewrite elem_of_intersection.
    split; [intros [Hx Hy]; by destruct (H x Hx) | by intros ?%not_elem_of_empty].
Qed.

(** Without order verification the check passes exactly when the two sets
    of names coincide, for every kind of iterable. *)
Lemma check_gui_calls_unordered self expected :
  passes (check_gui_calls expected false self) ↔
  (∀ x, x ∈ calls self ↔ x ∈ py_iter expected).
Proof.
  unfold check_gui_calls, bind, gets, eq_, assert_, passes; simpl.
  case_bool_decide as H; simpl.
  - split; [|done]. intros _ x.
    by rewrite <- elem_of_py_set, <- H, elem_of_list_to_set.
  - split; [done|]. intros Hx. apply H, set_eq. intros x.
    by rewrite elem_of_py_set, <- Hx, elem_of_list_to_set.
Qed.

(** With order verification and a list, it passes exactly when the two
    sequences are the same. *)
Lemma check_gui_calls_ordered_list self xs :
  passes (check_gui_calls (PyList xs) true self) ↔ calls self = xs.
Proof.
  unfold check_gui_calls, bind, gets, eq_, assert_, passes; simpl.
  case_bool_decide; simpl; tauto.
Qed.

(** With order verification, anything but a list fails. *)
Lemma check_gui_calls_ordered_not_list self expected :
  (∀ xs, expected ≠ PyList xs) → ¬ passes (check_gui_calls expected true self).
Proof.
  intros Hne. unfold check_gui_calls, bind, gets, eq_, assert_, passes; simpl.
  destruct expected; simpl; try tauto. by destruct (Hne xs).
Qed.

(** The partial check leaves the log alone until its last statement. *)
Lemma check_gui_calls_partial_run self (e ne : option pyobj) vo :
  let r := check_gui_calls_partial e ne vo self in
  match r.1 with
  | Returns _ => r.2 = mk []
  | Raises _ => r.2 = self
  end.
Proof.
  unfold check_gui_calls_partial, bind, gets, assert_, clear_calls, modify, ret,
    raise; simpl.
  destruct e as [e|]; simpl.
  - case_bool_decide; simpl; [|done].
    destruct vo; simpl.
    + pose proof (check_order_state (py_iter e) 0 self) as Hst.
      destruct (check_order (py_iter e) 0 self) as [[[]|ex] s']; simpl in *; subst s';
        [|done].
      destruct ne as [ne|]; simpl; [|done]. by case_bool_decide.
    + destruct ne as [ne|]; simpl; [|done]. by case_bool_decide.
  - destruct ne as [ne|]; simpl; [|done]. by case_bool_decide.
Qed.

(** C1, as the code has it: the log is empty once [check_gui_calls] or
    [check_gui_calls_partial] has returned; when the check raises, the log
    is what it was before the call, because [clear_calls] is the last
    statement of both methods and nothing guards it. *)
Theorem check_clears_log_on_return self expected (e ne : option pyobj) vo :
  (let r := check_gui_calls expected vo self in
   match r.1 with
   | Returns _ => calls r.2 = []
   | Raises _ => calls r.2 = calls self
   end) ∧
  (let r := check_gui_calls_partial e ne vo self in
   match r.1 with
   | Returns _ => calls r.2 = []
   | Raises _ => calls r.2 = calls self
   end).
Proof.
  split.
  - unfold check_gui_calls, bind, gets, eq_; cbn beta.
    destruct vo; by destruct (py_eq _ _).
  - pose proof (check_gui_calls_partial_run self e ne vo) as H. simpl in *.
    destruct (check_gui_calls_partial e ne vo self) as [[[]|ex] s']; simpl in *;
      by subst.
Qed.

(** C1 as stated fails: after [check_gui_calls(["b"])] has raised on a
    logger that recorded [a], and likewise after the partial check, the log
    still holds [a]. *)
Lemma check_failed_keeps_log :
  check_gui_calls (PyList ["b"]) false (record ["a"])
    = (Raises AssertionError, mk ["a"]) ∧
  check_gui_calls_partial (Some (PyList ["b"])) None false (record ["a"])
    = (Raises AssertionError, mk ["a"]) ∧
  calls (check_gui_calls (PyList ["b"]) false (record ["a"])).2 ≠ [].
Proof. split_and!; [by vm_compute | by vm_compute | by vm_compute]. Qed.

(** C4 at a tuple: the recorded sequence is [a] and so is the expected one,
    yet with [verify_order=True] the check raises, because a list never
    equals a tuple.  The unordered check of the same input passes. *)
Theorem check_gui_calls_ordered_tuple_fails :
  check_gui_calls (PyTuple ["a"]) true (record ["a"])
    = (Raises AssertionError, mk ["a"]) ∧
  check_gui_calls (PyTuple ["a"]) false (record ["a"]) = (Returns tt, mk []).
Proof. split; by vm_compute. Qed.

(** C5: [check_gui_calls_partial] passes exactly when every expected name
    was recorded, the first-occurrence indices of the expected names never
    decrease when the order is verified, and no unwanted name was recorded;
    with the two recorded sequences of the specification. *)
Theorem check_gui_calls_partial_passes_iff :
  (∀ self (e ne : option pyobj) vo,
     passes (check_gui_calls_partial e ne vo self) ↔
     spec_partial_passes (calls self) e ne vo) ∧
  (∀ vo, passes (check_gui_calls_partial (Some (PyList ["a"; "b"])) None vo
                   (record ["x"; "a"; "y"; "b"]))) ∧
  passes (check_gui_calls_partial (Some (PyList ["a"; "b"])) None false
            (record ["b"; "a"])) ∧
  ¬ passes (check_gui_calls_partial (Some (PyList ["a"; "b"])) None true
              (record ["b"; "a"])) ∧
  ¬ passes (check_gui_calls_partial None (Some (PyList ["c"])) false
              (record ["a"; "c"])).
Proof.
  split_and!.
  - intros self e ne vo.
    assert (∀ ne', passes
      ((match ne' with
        | Some not_expected =>
            bind (gets calls) (λ self_calls,
              assert_ (bool_decide
                (py_set not_expected ∩ py_set (PyList self_calls) = ∅)))
        | None => ret tt
        end;; clear_calls)%py self) ↔
      (∀ n, ne' = Some n → ∀ x, x ∈ py_iter n → x ∉ calls self)) as Hne.
    { intros [n|]; unfold bind, gets, assert_, passes; simpl.
      - case_bool_decide as H; simpl.
        + split; [|done]. intros _ ? [= <-] x Hx.
          rewrite intersection_empty_iff in H.
          specialize (H x). rewrite elem_of_py_set in H.
          intros Hc. apply (H Hx). by apply elem_of_list_to_set.
        + split; [done|]. intros Hn. apply H, intersection_empty_iff.
          intros x Hx. rewrite elem_of_py_set in Hx.
          rewrite elem_of_list_to_set. by eapply Hn.
      - split; [|done]. by intros _ ? [=]. }
    unfold spec_partial_passes. rewrite <- Hne. clear Hne.
    unfold check_gui_calls_partial.
    destruct e as [e|].
    + unfold bind at 1 2 3. unfold gets at 1. simpl.
      unfold assert_. case_bool_decide as H; simpl.
      * rewrite difference_empty_iff in H.
        assert (∀ x, x ∈ py_iter e → x ∈ calls self) as Hall.
        { intros x Hx. apply elem_of_py_set, H in Hx.
          by apply elem_of_list_to_set in Hx. }
        destruct vo.
        -- pose proof (check_order_state (py_iter e) 0 self) as Hst.
           pose proof (check_order_passes (py_iter e) 0 self Hall) as Hp.
           unfold passes in Hp.
           destruct (check_order (py_iter e) 0 self) as [[[]|ex] s']; simpl in *;
             subst s'.
           ++ split.
              ** intros Hpass. split; [|done]. intros ? [= <-]. split; [done|].
                 intros _. by apply Hp.
              ** by intros [_ ?].
           ++ unfold passes at 1; simpl. split; [done|]. intros [He _].
              destruct (He e eq_refl) as [_ Hnd]. apply Hp. split; [|by apply Hnd].
              intros; lia.
        -- simpl. split.
           ++ intros Hpass. split; [|done]. by intros ? [= <-].
           ++ by intros [_ ?].
      * unfold passes at 1; simpl. split; [done|]. intros [He _].
        destruct (He e eq_refl) as [Hall _]. apply H, difference_empty_iff.
        intros x Hx. apply elem_of_list_to_set, Hall. by apply elem_of_py_set.
    + unfold bind at 1. simpl. split.
      * intros Hpass. split; [by intros ? [=] | done].
      * by intros [_ ?].
  - intros []; by vm_compute.
  - by vm_compute.
  - vm_compute. tauto.
  - vm_compute. tauto.
Qed.

End CallLoggerProps.

(** ** Argument unification *)

Section UnifyProps.

Import Unify.

Implicit Types (d kwargs result : gmap string value) (k : string) (v : value).

Lemma setdefault_lookup d k v k' :
  setdefault k v d !! k' =
  match d !! k' with
  | Some w => Some w
  | None => if decide (k = k') then Some v else None
  end.
Proof.
  unfold setdefault. destruct (d !! k) as [w|] eqn:E.
  - destruct (d !! k') eqn:E'; [done|]. case_decide; [congruence | done].
  - rewrite lookup_insert. case_decide; subst.
    + by rewrite E.
    + by destruct (d !! k').
Qed.

(** A binding that is already there survives every [setdefault]. *)
Lemma fill_keeps d kvs k v : d !! k = Some v → fill d kvs !! k = Some v.
Proof.
  revert d. induction kvs as [|[k' v'] kvs IH]; intros d Hd; simpl; [done|].
  apply IH. by rewrite setdefault_lookup, Hd.
Qed.

(** An unbound name takes the value of the first pair that names it. *)
Lemma fill_first d kvs k i v :
  d !! k = None →
  kvs !! i = Some (k, v) →
  (∀ j w, j < i → kvs !! j ≠ Some (k, w)) →
  fill d kvs !! k = Some v.
Proof.
  revert d i. induction kvs as [|[k' v'] kvs IH]; intros d i Hd Hi Hfirst.
  - by rewrite lookup_nil in Hi.
  - simpl. destruct i as [|i]; simpl in Hi.
    + injection Hi as -> ->. apply fill_keeps.
      rewrite setdefault_lookup, Hd. by rewrite decide_True.
    + assert (k' ≠ k) as Hne.
      { intros ->. by apply (Hfirst 0 v'); [lia|]. }
      apply (IH _ i); [| done |].
      * rewrite setdefault_lookup, Hd. by rewrite decide_False.
      * intros j w Hj. apply (Hfirst (S j) w). lia.
Qed.

(** A name that no pair mentions stays as it was. *)
Lemma fill_other d kvs k : k ∉ kvs.*1 → fill d kvs !! k = d !! k.
Proof.
  revert d. induction kvs as [|[k' v'] kvs IH]; intros d Hk; simpl; [done|].
  simpl in Hk. apply not_elem_of_cons in Hk as [Hne Hk].
  rewrite IH by done. rewrite setdefault_lookup.
  destruct (d !! k); [done|]. by rewrite decide_False.
Qed.

Lemma del_keys_other kws result result' k :
  del_keys kws result = Returns result' → k ∉ kws → result' !! k = result !! k.
Proof.
  revert result. induction kws as [|kw kws IH]; intros result; simpl.
  - by intros [= <-].
  - destruct (result !! kw) eqn:E; [|done].
    intros Hd Hk. apply not_elem_of_cons in Hk as [Hne Hk].
    rewrite (IH _ Hd Hk). by rewrite lookup_delete_ne.
Qed.

(** Keyword arguments win: whatever the callable and the positional
    arguments, a name bound in [kwargs] keeps its keyword value, unless the
    callable has no [__code__] and the name is the reserved ["args"]. *)
Lemma unify_args_keyword_wins func args kwargs k v :
  kwargs !! k = Some v →
  is_Some (__code__ func) ∨ k ≠ "args" →
  ∃ result, _unify_args func args kwargs None = Returns result ∧
            result !! k = Some v.
Proof.
  intros Hk Hc. unfold _unify_args. eexists. split; [done|].
  destruct (__code__ func) as [c|].
  - by apply fill_keeps.
  - destruct Hc as [[? [=]]|Hne]. by rewrite lookup_insert_ne.
Qed.

(** When the declared defaults cover every parameter that got no positional
    argument, each such parameter that is not a keyword takes the default
    declared for it: the one at the same distance from the end. *)
Lemma unify_args_fills_defaults c names defaults args kwargs i k :
  let func := {| __code__ := Some {| co_argcount := c; co_varnames := names |};
                 __defaults__ := Some defaults; __self__ := None |} in
  NoDup names →
  length args ≤ i → i < c → c ≤ length names →
  c - length args ≤ length defaults →
  names !! i = Some k →
  kwargs !! k = None →
  ∃ result, _unify_args func args kwargs None = Returns result ∧
            result !! k = defaults !! (length defaults - (c - i)).
Proof.
  intros func Hnd Hlo Hhi Hc Hdef Hk Hkw. unfold _unify_args; simpl.
  eexists. split; [done|].
  rewrite decide_True by lia.
  unfold slice_last.
  assert (is_Some (defaults !! (length defaults - (c - i)))) as [v Hv].
  { apply lookup_lt_is_Some. lia. }
  rewrite Hv. apply (fill_first _ _ _ i); [done | |].
  - apply lookup_zip_with_Some. exists k, v. split_and!; [done | done |].
    rewrite lookup_app_r by lia. rewrite lookup_drop.
    rewrite <- Hv. f_equal. lia.
  - intros j w Hj Hjk. apply lookup_zip_with_Some in Hjk as (k' & w' & [= <- <-] & Hn & _).
    assert (j = i) by (eapply NoDup_lookup; eauto). lia.
Qed.

(** C2 at [def f(a, b=1, c=2)] called as [f(a=5)]: no positional argument
    is supplied, the missing parameters are [a], [b] and [c], and the
    defaults declared for [b] and [c] are 1 and 2.  The code pairs the two
    defaults with the first two names instead: [b] gets 2, the default of
    [c], and [c] is not filled at all. *)
Theorem unify_args_misaligned_defaults :
  _unify_args f_abc [] {["a" := VInt 5]} None
    = Returns (<["b" := VInt 2]> {["a" := VInt 5]}) ∧
  (<["b" := VInt 2]> {["a" := VInt 5]} : gmap string value) !! "b" ≠ Some (VInt 1) ∧
  (<["b" := VInt 2]> {["a" := VInt 5]} : gmap string value) !! "c" = None.
Proof. split_and!; by vm_compute. Qed.

(** C7: the three unifications of [foo(bar, baz=10)]. *)
Theorem unify_args_foo :
  _unify_args foo [VInt 42] ∅ None
    = Returns (<["bar" := VInt 42]> {["baz" := VInt 10]}) ∧
  _unify_args foo [VInt 42] {["baz" := VInt 23]} None
    = Returns (<["bar" := VInt 42]> {["baz" := VInt 23]}) ∧
  _unify_args foo [VInt 42] ∅ (Some ["bar"])
    = Returns {["baz" := VInt 10]}.
Proof. split_and!; by vm_compute. Qed.

(** X25: for a callable without [__code__], such as a built-in, the whole
    positional tuple is bound to ["args"], and it is still there after any
    exclusion list that does not name ["args"]. *)
Theorem unify_args_variadic func args kwargs :
  __code__ func = None →
  _unify_args func args kwargs None
    = Returns (<["args" := VTuple args]> kwargs) ∧
  (∀ ignore result,
     _unify_args func args kwargs (Some ignore) = Returns result →
     "args" ∉ ignore →
     result !! "args" = Some (VTuple args)).
Proof.
  intros Hc. unfold _unify_args. rewrite Hc. split; [done|].
  intros [|kw kws] result.
  - intros [= <-] _. by rewrite lookup_insert_eq.
  - intros Hd Hk. rewrite (del_keys_other _ _ _ _ Hd Hk).
    by rewrite lookup_insert_eq.
Qed.

Lemma unify_args_variadic_witness :
  __code__ opaque = None ∧
  _unify_args opaque [VInt 1; VInt 2] {["k" := VStr "v"]} None
    = Returns (<["args" := VTuple [VInt 1; VInt 2]]> {["k" := VStr "v"]}) ∧
  (∀ ignore result,
     _unify_args opaque [VInt 1; VInt 2] {["k" := VStr "v"]} (Some ignore)
       = Returns result →
     "args" ∉ ignore →
     result !! "args" = Some (VTuple [VInt 1; VInt 2])).
Proof.
  split; [reflexivity|]. apply (unify_args_variadic opaque). reflexivity.
Defined.

(** C8 at a pure variadic function, one whose only parameter is the
    starred [args].  Such a function does have [__code__]: it declares no
    positional parameter and its first local variable is [args], so the
    code takes the branch of the introspectable functions and the zip binds
    ["args"] to the first positional argument alone, when no keyword has
    that name, and to nothing when there is no positional argument.  For
    the arguments 1 and 2 the result binds ["args"] to 1, not to the tuple
    of 1 and 2 that the claim and the docstring of [_unify_args] announce. *)
Theorem unify_args_star_args_function :
  let g := {| __code__ := Some {| co_argcount := 0; co_varnames := ["args"] |};
              __defaults__ := None; __self__ := None |} in
  (∀ args kwargs,
     ∃ result, _unify_args g args kwargs None = Returns result ∧
               result !! "args" = match kwargs !! "args" with
                                  | Some v => Some v
                                  | None => head args
                                  end) ∧
  _unify_args g [VInt 1; VInt 2] ∅ None = Returns {["args" := VInt 1]} ∧
  _unify_args g [VInt 1; VInt 2] ∅ None
    ≠ Returns {["args" := VTuple [VInt 1; VInt 2]]} ∧
  _unify_args g [] ∅ None = Returns ∅.
Proof.
  split_and!.
  - intros args kwargs. unfold _unify_args.
    cbn [__code__ __self__ __defaults__ co_argcount co_varnames default].
    eexists. split; [done|].
    rewrite decide_False by lia.
    destruct args as [|v args]; cbn [zip zip_with fill foldl head].
    + by destruct (kwargs !! "args").
    + rewrite setdefault_lookup. destruct (kwargs !! "args"); [done|].
      by rewrite decide_True.
  - by vm_compute.
  - vm_compute. intros [=].
  - by vm_compute.
Qed.

(** Excluding a name that is not in the result raises [KeyError]. *)
Lemma unify_args_ignore_missing :
  _unify_args foo [VInt 42] ∅ (Some ["nope"]) = Raises (KeyError "nope").
Proof. by vm_compute. Qed.

(** A bound method: the receiver is the first positional argument. *)
Lemma unify_args_bound_method :
  let meth := {| __code__ := Some {| co_argcount := 2;
                                      co_varnames := ["self"; "x"; "tmp"] |};
                 __defaults__ := None; __self__ := Some (VObj 7) |} in
  _unify_args meth [VInt 3] ∅ None
    = Returns (<["self" := VObj 7]> {["x" := VInt 3]}).
Proof. by vm_compute. Qed.

End UnifyProps.

(** ** The patcher *)

Section PatcherProps.

Import Patcher.

Implicit Types (s : state) (h : gmap ref namespace) (d : namespace)
  (a key attrname : string) (target tm v old : ref)
  (L recs : list (ref * string * ref)).

(** *** Namespaces *)

Lemma ns_get_set_eq a v d : ns_get a (ns_set a v d) = Some v.
Proof.
  induction d as [|[k x] d IH]; simpl.
  - by rewrite decide_True.
  - destruct (decide (k = a)) as [->|Hne]; simpl.
    + by rewrite decide_True.
    + by rewrite decide_False.
Qed.

Lemma ns_get_set_ne a b v d : a ≠ b → ns_get b (ns_set a v d) = ns_get b d.
Proof.
  intros Hab. induction d as [|[k x] d IH]; simpl.
  - by rewrite decide_False.
  - destruct (decide (k = a)) as [->|Hne]; simpl.
    + by rewrite !decide_False.
    + by rewrite IH.
Qed.

Lemma ns_set_set a v w d : ns_set a v (ns_set a w d) = ns_set a v d.
Proof.
  induction d as [|[k x] d IH]; simpl.
  - by rewrite decide_True.
  - destruct (decide (k = a)) as [->|Hne]; simpl.
    + by rewrite decide_True.
    + rewrite decide_False by done. by rewrite IH.
Qed.

Lemma ns_set_id a v d : ns_get a d = Some v → ns_set a v d = d.
Proof.
  induction d as [|[k x] d IH]; simpl; [done|].
  destruct (decide (k = a)) as [->|Hne].
  - by intros [= ->].
  - intros H. by rewrite IH.
Qed.

Lemma ns_set_keys a v d : is_Some (ns_get a d) → (ns_set a v d).*1 = d.*1.
Proof.
  induction d as [|[k x] d IH]; simpl; [by intros [? [=]]|].
  destruct (decide (k = a)) as [->|Hne]; simpl; [done|].
  intros H. f_equal. by apply IH.
Qed.

Lemma ns_get_is_Some a d : a ∈ d.*1 → is_Some (ns_get a d).
Proof.
  induction d as [|[k x] d IH]; simpl; [by intros ?%elem_of_nil|].
  destruct (decide (k = a)) as [->|Hne]; [by eexists|].
  intros [?|?]%elem_of_cons; [congruence | by apply IH].
Qed.

Lemma ns_set_comm a b v w d :
  a ≠ b → is_Some (ns_get a d) →
  ns_set b w (ns_set a v d) = ns_set a v (ns_set b w d).
Proof.
  intros Hab. induction d as [|[k x] d IH]; simpl; [by intros [? [=]]|].
  destruct (decide (k = a)) as [->|Hka]; simpl.
  - intros _. rewrite !decide_False by done. simpl. by rewrite decide_True.
  - intros H. destruct (decide (k = b)) as [->|Hkb]; simpl.
    + by rewrite decide_False.
    + rewrite decide_False by done. by rewrite IH.
Qed.

(** *** Attribute assignment on the heap of namespaces *)

Lemma lookup_attr_write target a v h target' a' :
  lookup_attr (write target a v h) target' a' =
  if decide (target = target' ∧ a = a') then Some v
  else lookup_attr h target' a'.
Proof.
  unfold lookup_attr, write.
  destruct (decide (target = target')) as [<-|Ht].
  - rewrite lookup_insert_eq. simpl.
    destruct (decide (a = a')) as [<-|Ha].
    + rewrite decide_True by done. apply ns_get_set_eq.
    + rewrite decide_False by tauto. rewrite ns_get_set_ne by done.
      by destruct (h !! target).
  - rewrite lookup_insert_ne by done. by rewrite decide_False by tauto.
Qed.

Lemma write_write target a v w h :
  write target a v (write target a w h) = write target a v h.
Proof.
  unfold write. rewrite lookup_insert_eq. simpl.
  by rewrite insert_insert_eq, ns_set_set.
Qed.

Lemma write_id target a v h :
  lookup_attr h target a = Some v → write target a v h = h.
Proof.
  unfold lookup_attr, write. destruct (h !! target) as [d|] eqn:E; simpl; [|done].
  intros H. rewrite ns_set_id by done. by apply insert_id.
Qed.

Lemma write_comm target a v target' a' w h :
  ¬ (target = target' ∧ a = a') → is_Some (lookup_attr h target a) →
  write target' a' w (write target a v h) = write target a v (write target' a' w h).
Proof.
  unfold lookup_attr, write. intros Hne Hin.
  destruct (decide (target = target')) as [<-|Ht].
  - rewrite !lookup_insert_eq, !insert_insert_eq. simpl.
    destruct (h !! target) as [d|]; simpl in *; [|by destruct Hin].
    rewrite ns_set_comm; [done | | done]. intros ->. tauto.
  - rewrite !lookup_insert_ne by done. by apply insert_insert_ne.
Qed.

(** *** Undoing patch records, most recent first *)

Lemma restore_nil h : restore [] h = h.
Proof. done. Qed.

Lemma restore_snoc L target a old h :
  restore (L ++ [(target, a, old)]) h = restore L (write target a old h).
Proof. unfold restore. by rewrite reverse_snoc. Qed.

Lemma restore_app L recs h : restore (L ++ recs) h = restore L (restore recs h).
Proof. unfold restore, writes. by rewrite reverse_app, foldl_app. Qed.

Lemma with_attrs_id s : with_attrs (attrs s) s = s.
Proof. by destruct s. Qed.

Lemma for_setattr ws s :
  for_ ws (λ '(target, attrname, old_value), setattr target attrname old_value) s
  = (Returns tt, with_attrs (writes ws (attrs s)) s).
Proof.
  revert s. induction ws as [|[[target a] v] ws IH]; intros s; simpl.
  - unfold ret. by rewrite with_attrs_id.
  - unfold bind, setattr, modify. by rewrite IH.
Qed.

(** [unpatch] always returns; it rewrites the namespaces and nothing else. *)
Lemma unpatch_run s :
  unpatch s = (Returns tt, with_attrs (restore (_patched (self s)) (attrs s)) s).
Proof. unfold unpatch, bind, gets. by rewrite for_setattr. Qed.

(** *** Assignments absorb and commute *)

Lemma writes_present ws h target a :
  is_Some (lookup_attr h target a) →
  is_Some (lookup_attr (writes ws h) target a).
Proof.
  revert h. induction ws as [|[[t1 a1] v1] ws IH]; intros h Hin; simpl; [done|].
  apply IH. rewrite lookup_attr_write. by case_decide.
Qed.

Lemma writes_not_in ws h target a :
  (target, a) ∉ ws.*1 →
  lookup_attr (writes ws h) target a = lookup_attr h target a.
Proof.
  revert h. induction ws as [|[[t1 a1] v1] ws IH]; intros h Hnin; simpl; [done|].
  simpl in Hnin. apply not_elem_of_cons in Hnin as [Hne Hnin].
  rewrite IH by done. rewrite lookup_attr_write.
  rewrite decide_False; [done|]. intros [-> ->]. done.
Qed.

(** An assignment to a bound attribute is forgotten when a later one
    overwrites it. *)
Lemma writes_absorb ws h target a v :
  is_Some (lookup_attr h target a) →
  (target, a) ∈ ws.*1 →
  writes ws (write target a v h) = writes ws h.
Proof.
  revert h. induction ws as [|[[t1 a1] v1] ws IH]; intros h Hin Hel; simpl.
  - by apply elem_of_nil in Hel.
  - destruct (decide (target = t1 ∧ a = a1)) as [[-> ->]|Hne].
    + by rewrite write_write.
    + simpl in Hel. apply elem_of_cons in Hel as [[= -> ->]|Hel]; [tauto|].
      rewrite write_comm by done. apply IH; [|done].
      rewrite lookup_attr_write. by case_decide.
Qed.

(** Running the same assignments twice is running them once. *)
Lemma writes_idempotent ws h : writes ws (writes ws h) = writes ws h.
Proof.
  revert h. induction ws as [|[[t1 a1] v1] ws IH]; intros h; simpl; [done|].
  fold (writes ws (write t1 a1 v1 h)).
  set (H := writes ws (write t1 a1 v1 h)).
  fold (writes ws (write t1 a1 v1 H)).
  destruct (decide ((t1, a1) ∈ ws.*1)) as [Hel|Hnin].
  - rewrite writes_absorb; [apply IH | | done].
    apply writes_present. rewrite lookup_attr_write. by rewrite decide_True.
  - rewrite write_id; [apply IH|].
    unfold H. rewrite writes_not_in by done.
    rewrite lookup_attr_write. by rewrite decide_True.
Qed.

(** C10: [unpatch] returns, leaves the Patcher and its patch records as
    they are, and a second [unpatch] changes nothing: the state after it is
    the state after the first one. *)
Theorem unpatch_idempotent s :
  (unpatch s).1 = Returns tt ∧
  self (unpatch s).2 = self s ∧
  _patched (self (unpatch s).2) = _patched (self s) ∧
  unpatch (unpatch s).2 = (Returns tt, (unpatch s).2).
Proof.
  rewrite unpatch_run. simpl. split_and!; try done.
  rewrite unpatch_run. simpl. f_equal.
  unfold with_attrs; simpl. f_equal. apply writes_idempotent.
Qed.

(** *** What a patch does *)

Lemma patched_from_refl s : patched_from s s.
Proof.
  unfold patched_from. split_and!; try done.
  exists []. by rewrite app_nil_r.
Qed.

Lemma patched_from_trans s1 s2 s3 :
  patched_from s1 s2 → patched_from s2 s3 → patched_from s1 s3.
Proof.
  intros (Hf & Hn & Hc & Ht & Ho & r1 & Hp1 & Hr1)
         (Hf' & Hn' & Hc' & Ht' & Ho' & r2 & Hp2 & Hr2).
  unfold patched_from. split_and!; try congruence.
  exists (r1 ++ r2). split.
  - by rewrite Hp2, Hp1, app_assoc.
  - by rewrite restore_app, Hr2.
Qed.

Lemma only_touches_refl target s : only_touches target s s.
Proof. by split. Qed.

Lemma only_touches_trans target s1 s2 s3 :
  only_touches target s1 s2 → only_touches target s2 s3 →
  only_touches target s1 s3.
Proof.
  intros [H1 K1] [H2 K2]. split.
  - intros t' Hne. by rewrite H2, H1.
  - by rewrite K2, K1.
Qed.

Lemma after_patch_spec target a old r s :
  lookup_attr (attrs s) target a = Some old →
  patched_from s (after_patch target a old r s) ∧
  only_touches target s (after_patch target a old r s) ∧
  lookup_attr (attrs (after_patch target a old r s)) target a = Some r.
Proof.
  intros Hold. unfold after_patch, patched_from, only_touches; simpl.
  split_and!; try done.
  - exists [(target, a, old)]. split; [done|].
    rewrite <- (app_nil_l [_]), restore_snoc, restore_nil.
    by rewrite write_write, write_id.
  - intros t' Hne. unfold write. by rewrite lookup_insert_ne.
  - unfold write. rewrite lookup_insert_eq. simpl. apply ns_set_keys.
    unfold lookup_attr in Hold. destruct (attrs s !! target); simpl in *; by eauto.
  - rewrite lookup_attr_write. by rewrite decide_True.
Qed.

(** The body of [patch] once the attribute is known to exist. *)
Lemma patch_body_run self_patch target a r s old :
  lookup_attr (attrs s) target a = Some old →
  patch_body self_patch target a r s =
  let s1 := after_patch target a old r s in
  match _target_module (self s) with
  | Some tm =>
      if decide (tm ≠ target)
      then scan self_patch tm old r (default [] (attrs s1 !! tm)).*1 s1
      else (Returns tt, s1)
  | None => (Returns tt, s1)
  end.
Proof.
  intros Hold. unfold patch_body, bind at 1, getattr at 1. rewrite Hold.
  unfold bind, gets; simpl.
  unfold after_patch, setattr, append_patched, modify; simpl.
  destruct (_target_module (self s)) as [tm|]; [|done].
  by destruct (decide (tm ≠ target)).
Qed.

(** Patching an attribute of the target module itself: no scan. *)
Lemma patch_body_same_module self_patch tm key r s old :
  _target_module (self s) = Some tm →
  lookup_attr (attrs s) tm key = Some old →
  patch_body self_patch tm key r s = (Returns tt, after_patch tm key old r s).
Proof.
  intros Htm Hold. rewrite (patch_body_run _ _ _ _ _ _ Hold). simpl.
  rewrite Htm. by rewrite decide_False by (intros H; by apply H).
Qed.

(** The scan returns, whatever the recursive call is given to call in turn,
    and it only assigns attributes of the target module. *)
Lemma scan_spec tm old r keys s :
  _target_module (self s) = Some tm →
  keys ⊆ (default [] (attrs s !! tm)).*1 →
  ∃ s', (∀ g, scan (patch_body g) tm old r keys s = (Returns tt, s')) ∧
        patched_from s s' ∧ only_touches tm s s'.
Proof.
  revert s. induction keys as [|key keys IH]; intros s Htm Hkeys.
  - exists s. split_and!; [done | apply patched_from_refl | apply only_touches_refl].
  - assert (is_Some (lookup_attr (attrs s) tm key)) as [v Hv].
    { unfold lookup_attr. assert (key ∈ (default [] (attrs s !! tm)).*1) as Hin
        by (apply Hkeys; left).
      destruct (attrs s !! tm) as [d|]; simpl in *.
      - by apply ns_get_is_Some.
      - by apply elem_of_nil in Hin. }
    destruct (decide (v = old)) as [->|Hne].
    + destruct (after_patch_spec tm key old r s Hv) as (Hpf & Hot & _).
      destruct (IH (after_patch tm key old r s)) as (s' & Hrun & Hpf' & Hot').
      { destruct Hpf as (_ & _ & _ & -> & _). done. }
      { destruct Hot as [_ ->]. set_solver. }
      exists s'. split_and!.
      * intros g. unfold scan; simpl. unfold bind at 1 2, getattr at 1. rewrite Hv.
        rewrite decide_True by done.
        rewrite (patch_body_same_module _ _ _ _ _ _ Htm Hv). apply Hrun.
      * by eapply patched_from_trans.
      * by eapply only_touches_trans.
    + destruct (IH s) as (s' & Hrun & Hpf' & Hot'); [done | set_solver |].
      exists s'. split_and!; [|done|done].
      intros g. unfold scan; simpl. unfold bind at 1 2, getattr at 1. rewrite Hv.
      rewrite decide_False by done. apply Hrun.
Qed.

(** [patch] returns as soon as the attribute exists, and then the attribute
    holds the replacement. *)
Lemma patch_depth_run target a r s old :
  lookup_attr (attrs s) target a = Some old →
  ∃ s', (∀ n, patch_depth (S (S n)) target a r s = (Returns tt, s')) ∧
        patched_from s s' ∧
        lookup_attr (attrs s') target a = Some r.
Proof.
  intros Hold.
  destruct (after_patch_spec target a old r s Hold) as (Hpf & Hot & Hr).
  assert (_target_module (self (after_patch target a old r s))
          = _target_module (self s)) as Htm
    by (by destruct Hpf as (_ & _ & _ & -> & _)).
  assert (∀ n, patch_depth (S (S n)) target a r s
               = patch_body (patch_body (patch_depth n)) target a r s) as Hdepth
    by done.
  destruct (_target_module (self s)) as [tm|] eqn:E.
  - destruct (decide (tm ≠ target)) as [Hne|Heq].
    + destruct (scan_spec tm old r
                  (default [] (attrs (after_patch target a old r s) !! tm)).*1
                  (after_patch target a old r s) Htm)
        as (s' & Hrun & Hpf' & [Hot' _]); [done|].
      exists s'. split_and!.
      * intros n. rewrite Hdepth, (patch_body_run _ _ _ _ _ _ Hold). simpl.
        rewrite E. rewrite decide_True by done. apply Hrun.
      * by eapply patched_from_trans.
      * unfold lookup_attr in *. rewrite Hot' by done. exact Hr.
    + eexists. split_and!; [|done|done].
      intros n. rewrite Hdepth, (patch_body_run _ _ _ _ _ _ Hold). simpl.
      rewrite E. by rewrite decide_False by done.
  - eexists. split_and!; [|done|done].
    intros n. rewrite Hdepth, (patch_body_run _ _ _ _ _ _ Hold). simpl.
    by rewrite E.
Qed.

(** [patch] raises before it has changed anything when the attribute is
    missing. *)
Lemma patch_depth_missing n target a r s :
  lookup_attr (attrs s) target a = None →
  patch_depth (S n) target a r s = (Raises (AttributeError a), s).
Proof.
  intros Hnone. simpl. unfold patch_body, bind, getattr. by rewrite Hnone.
Qed.

(** [patch] is the function its source defines: it satisfies the recursive
    equation of the method. *)
Lemma patch_unfold target a r s :
  patch target a r s = patch_body patch target a r s.
Proof.
  unfold patch. change (patch_body (patch_depth 2) target a r s)
    with (patch_depth 3 target a r s).
  destruct (lookup_attr (attrs s) target a) as [old|] eqn:E.
  - destruct (patch_depth_run target a r s old E) as (s' & Hrun & _).
    by rewrite (Hrun 0), (Hrun 1).
  - by rewrite !patch_depth_missing.
Qed.

Lemma patch_patched_from target a r s : patched_from s (patch target a r s).2.
Proof.
  destruct (lookup_attr (attrs s) target a) as [old|] eqn:E.
  - destruct (patch_depth_run target a r s old E) as (s' & Hrun & Hpf & _).
    unfold patch. by rewrite (Hrun 0).
  - unfold patch. rewrite patch_depth_missing by done. apply patched_from_refl.
Qed.

Lemma patch_all_patched_from calls s : patched_from s (patch_all calls s).2.
Proof.
  revert s. induction calls as [|[[target a] r] calls IH]; intros s; simpl.
  - apply patched_from_refl.
  - unfold bind. pose proof (patch_patched_from target a r s) as Hpf.
    destruct (patch target a r s) as [[[]|e] s1]; simpl in *; [|done].
    eapply patched_from_trans; [done | apply IH].
Qed.

(** After any patches on a Patcher that had none, [unpatch] rebuilds the
    namespaces it started from. *)
Lemma unpatch_patched_from s s' :
  _patched (self s) = [] → patched_from s s' → attrs (unpatch s').2 = attrs s.
Proof.
  intros Hnil (_ & _ & _ & _ & _ & recs & Hp & Hr).
  rewrite unpatch_run. simpl. by rewrite Hp, Hnil.
Qed.

(** *** The claims about [patch], [unpatch] and the scoped use *)

Lemma restore_not_in L h target a :
  (target, a) ∉ L.*1 →
  lookup_attr (restore L h) target a = lookup_attr h target a.
Proof.
  intros Hnin. unfold restore. apply writes_not_in.
  by rewrite fmap_reverse, elem_of_reverse.
Qed.

(** Whatever was patched since [s] is undone first: unpatching later gives
    the namespaces that unpatching at [s] gives. *)
Lemma unpatch_after_patches s s' :
  patched_from s s' → attrs (unpatch s').2 = attrs (unpatch s).2.
Proof.
  intros (_ & _ & _ & _ & _ & recs & Hp & Hr).
  rewrite !unpatch_run. simpl. by rewrite Hp, restore_app, Hr.
Qed.

(** C3: on a Patcher that holds no record of the attribute, [patch] of an
    existing attribute returns and installs the replacement; [unpatch] then
    gives the attribute its original value [V] back, also after any further
    patches of this or of other attributes; those further patches are all
    undone, and on a Patcher that had no record at all every namespace is
    what it was; [unpatch] undoes the most recent record first. *)
Theorem patch_unpatch_roundtrip s target a V r calls :
  (target, a) ∉ (_patched (self s)).*1 →
  lookup_attr (attrs s) target a = Some V →
  let s1 := (patch target a r s).2 in
  let s2 := (patch_all calls s1).2 in
  (patch target a r s).1 = Returns tt ∧
  lookup_attr (attrs s1) target a = Some r ∧
  (getattr target a (unpatch s1).2).1 = Returns V ∧
  (getattr target a (unpatch s2).2).1 = Returns V ∧
  attrs (unpatch s2).2 = attrs (unpatch s).2 ∧
  (_patched (self s) = [] → attrs (unpatch s2).2 = attrs s) ∧
  (∀ L target' a' old h,
     restore (L ++ [(target', a', old)]) h = restore L (write target' a' old h)).
Proof.
  intros Hnin HV. simpl.
  destruct (patch_depth_run target a r s V HV) as (s' & Hrun & Hpf & Hr).
  unfold patch at 1 2 3 4 5 6. rewrite (Hrun 0). simpl.
  assert (patched_from s (patch_all calls s').2) as Hpf2
    by (eapply patched_from_trans; [done | apply patch_all_patched_from]).
  assert (lookup_attr (attrs (unpatch s).2) target a = Some V) as Hback.
  { rewrite unpatch_run. simpl. by rewrite restore_not_in. }
  split_and!; [done | done | | | | | apply restore_snoc].
  - unfold getattr. by rewrite (unpatch_after_patches s s' Hpf), Hback.
  - unfold getattr. by rewrite (unpatch_after_patches s _ Hpf2), Hback.
  - by apply unpatch_after_patches.
  - intros Hnil. by apply unpatch_patched_from.
Qed.

Lemma patch_unpatch_roundtrip_witness :
  let s := example_state in
  let s1 := (patch 5 "x" 11 s).2 in
  let s2 := (patch_all [(5, "x", 12); (5, "x", 13)] s1).2 in
  (((5, "x") ∉ (_patched (self s)).*1) ∧ lookup_attr (attrs s) 5 "x" = Some 10) ∧
  (patch 5 "x" 11 s).1 = Returns tt ∧
  lookup_attr (attrs s1) 5 "x" = Some 11 ∧
  (getattr 5 "x" (unpatch s1).2).1 = Returns 10 ∧
  (getattr 5 "x" (unpatch s2).2).1 = Returns 10 ∧
  attrs (unpatch s2).2 = attrs (unpatch s).2 ∧
  (_patched (self s) = [] → attrs (unpatch s2).2 = attrs s) ∧
  (∀ L target' a' old h,
     restore (L ++ [(target', a', old)]) h = restore L (write target' a' old h)).
Proof.
  split; [split; [apply not_elem_of_nil | reflexivity] |].
  apply (patch_unpatch_roundtrip example_state 5 "x" 10 11
           [(5, "x", 12); (5, "x", 13)]).
  - simpl. apply not_elem_of_nil.
  - reflexivity.
Defined.

(** The order of [unpatch] matters: after [x] was patched from 10 to 11 and
    then to 12, undoing the records most recent first restores 10, while
    undoing them in the order of the patches would leave 11. *)
Lemma unpatch_order_matters :
  let s2 := (patch_all [(5, "x", 11); (5, "x", 12)] example_state).2 in
  _patched (self s2) = [(5, "x", 10); (5, "x", 11)] ∧
  lookup_attr (attrs s2) 5 "x" = Some 12 ∧
  lookup_attr (attrs (unpatch s2).2) 5 "x" = Some 10 ∧
  lookup_attr (writes (_patched (self s2)) (attrs s2)) 5 "x" = Some 11.
Proof. split_and!; by vm_compute. Qed.

(** With a target module, [patch] also replaces the module's aliases of the
    old value, and [unpatch] restores them. *)
Lemma patch_aliases_example :
  let s := {| self := __init__ (Some 7);
              attrs := {[ 5 := [("x", 10)];
                          7 := [("y", 3); ("x_alias", 10); ("z", 10)] ]};
              functions := ∅; next_ref := 20; clock := 0%float |} in
  let s1 := (patch 5 "x" 11 s).2 in
  attrs s1 = {[ 5 := [("x", 11)];
                7 := [("y", 3); ("x_alias", 11); ("z", 11)] ]} ∧
  _patched (self s1) = [(5, "x", 10); (7, "x_alias", 10); (7, "z", 10)] ∧
  attrs (unpatch s1).2 = attrs s.
Proof. split_and!; by vm_compute. Qed.

(** C9: a new Patcher has no patch record; building it and entering the
    [with] block change no namespace, and a block that does nothing leaves
    the state as it is; whatever the block does, the state after the [with]
    statement is the state the block left with [unpatch] run on it once, and
    the outcome of the block, a raised exception included, is the outcome
    of the statement. *)
Theorem with_Patcher_unpatches target_module (block : M state unit) s :
  let s0 := with_self (__init__ target_module) s in
  _patched (__init__ target_module) = [] ∧
  attrs s0 = attrs s ∧
  __enter__ s0 = (Returns (__init__ target_module), s0) ∧
  with_Patcher target_module (ret tt) s = (Returns tt, s0) ∧
  with_Patcher target_module block s = ((block s0).1, (unpatch (block s0).2).2) ∧
  (∀ e, (block s0).1 = Raises e → (with_Patcher target_module block s).1 = Raises e).
Proof.
  simpl.
  assert (∀ b : M state unit, with_Patcher target_module b s
            = ((b (with_self (__init__ target_module) s)).1,
               (unpatch (b (with_self (__init__ target_module) s)).2).2)) as Hwith.
  { intros b. unfold with_Patcher, with_, bind, modify, __enter__, gets, __exit__,
      bind, ret; simpl.
    destruct (b (with_self (__init__ target_module) s)) as [[[]|e] s']; simpl;
      by rewrite unpatch_run. }
  split_and!; [done | done | done | | apply Hwith |].
  - rewrite Hwith. unfold ret. rewrite unpatch_run. by destruct s.
  - intros e He. by rewrite Hwith.
Qed.

(** *** Patching today's date *)

(** What [patch_today] amounts to when [time.time] is the real clock and
    the date is valid: a patch of [time.time] with a new closure over the
    clock reading and the difference in days. *)
Lemma patch_today_run fromtimestamp s f0 y m (dd : Z) new_today :
  lookup_attr (attrs s) time_module "time" = Some f0 →
  functions s !! f0 = Some BuiltinTime →
  date_new y m dd = Returns new_today →
  patch_today fromtimestamp y m dd s
  = patch time_module "time" (next_ref s)
      (new_lambda (clock s)
         (timedelta_days (fromtimestamp (clock s)) new_today) s).2.
Proof.
  intros Hf0 Hbt Hdate.
  unfold patch_today, bind at 1, lift. rewrite Hdate.
  unfold date_today, time_time, bind at 1 2 3, getattr at 1. rewrite Hf0.
  unfold call at 1, bind at 1, gets at 1. rewrite Hbt.
  unfold gets at 1, ret at 1, bind at 1 2, getattr at 1. rewrite Hf0.
  unfold call at 1, bind at 1, gets at 1. rewrite Hbt.
  unfold gets at 1, bind at 1. done.
Qed.

(** C6: with [time.time] bound to the real clock, [patch_today] returns and
    from then on every read of [time.time], whatever the real clock says,
    gives the clock reading captured by [patch_today] minus the whole days
    between the real date and the wanted date, in seconds; after [unpatch]
    a read gives the real clock again.  From 2020-03-01 to 2020-01-15 the
    difference is 46 days, that is 3974400 seconds. *)
Theorem patch_today_shifts fromtimestamp s f0 y m (dd : Z) new_today :
  _patched (self s) = [] →
  lookup_attr (attrs s) time_module "time" = Some f0 →
  functions s !! f0 = Some BuiltinTime →
  functions s !! next_ref s = None →
  date_new y m dd = Returns new_today →
  let days := timedelta_days (fromtimestamp (clock s)) new_today in
  let s1 := (patch_today fromtimestamp y m dd s).2 in
  (patch_today fromtimestamp y m dd s).1 = Returns tt ∧
  (∀ now, (time_time (with_clock now s1)).1
          = Returns (PrimFloat.sub (clock s) (float_of_Z (days * 24 * 60 * 60)))) ∧
  (∀ now, (time_time (with_clock now (unpatch s1).2)).1 = Returns now) ∧
  ((y, m, dd) = (2020, 1, 15)%Z →
   fromtimestamp (clock s) = {| year := 2020; month := 3; day := 1 |} →
   days = 46%Z ∧
   ∀ now, (time_time (with_clock now s1)).1
          = Returns (PrimFloat.sub (clock s) 3974400%float)).
Proof.
  intros Hnil Hf0 Hbt Hfresh Hdate days.
  rewrite (patch_today_run _ _ _ _ _ _ _ Hf0 Hbt Hdate). fold days.
  set (sl := (new_lambda (clock s) days s).2).
  destruct (patch_depth_run time_module "time" (next_ref s) sl f0 Hf0)
    as (s' & Hrun & Hpf & Hr).
  unfold patch. rewrite (Hrun 0). simpl.
  assert (functions s' = <[next_ref s := Lambda (clock s) days]> (functions s))
    as Hfun by (by destruct Hpf as (-> & _)).
  assert (∀ now, (time_time (with_clock now s')).1
            = Returns (PrimFloat.sub (clock s) (float_of_Z (days * 24 * 60 * 60))))
    as Hread.
  { intros now. unfold time_time, bind, getattr. simpl. rewrite Hr.
    unfold call, bind, gets. simpl. by rewrite Hfun, lookup_insert_eq. }
  split_and!; [done | done | |].
  - intros now. rewrite unpatch_run. unfold time_time, bind, getattr. simpl.
    pose proof (unpatch_patched_from sl s' Hnil Hpf) as Hattrs.
    rewrite unpatch_run in Hattrs. simpl in Hattrs. rewrite Hattrs, Hf0.
    unfold call, bind, gets. simpl. rewrite Hfun.
    rewrite lookup_insert_ne by congruence. by rewrite Hbt.
  - intros [= -> -> ->] Hts.
    assert (new_today = {| year := 2020; month := 1; day := 15 |}) as ->
      by (vm_compute in Hdate; congruence).
    assert (days = 46%Z) as Hdays by (unfold days; rewrite Hts; by vm_compute).
    split; [done|]. intros now. rewrite Hread, Hdays. f_equal.
Qed.

Lemma patch_today_shifts_witness :
  let fromtimestamp := λ _ : float, {| year := 2020; month := 3; day := 1 |} in
  let s := example_state in
  let s1 := (patch_today fromtimestamp 2020 1 15 s).2 in
  (_patched (self s) = [] ∧
   lookup_attr (attrs s) time_module "time" = Some 1 ∧
   functions s !! 1 = Some BuiltinTime ∧
   functions s !! next_ref s = None ∧
   date_new 2020 1 15 = Returns {| year := 2020; month := 1; day := 15 |}) ∧
  (patch_today fromtimestamp 2020 1 15 s).1 = Returns tt ∧
  (∀ now, (time_time (with_clock now s1)).1
          = Returns (PrimFloat.sub (clock s) 3974400%float)) ∧
  (∀ now, (time_time (with_clock now (unpatch s1).2)).1 = Returns now).
Proof.
  split; [by split_and! |].
  destruct (patch_today_shifts
              (λ _ : float, {| year := 2020; month := 3; day := 1 |})
              example_state 1 2020 1 15 {| year := 2020; month := 1; day := 15 |})
    as (Hret & _ & Hback & Hshift); [reflexivity..|].
  destruct (Hshift eq_refl eq_refl) as [_ Hread].
  exact (conj Hret (conj Hread Hback)).
Defined.

(** At the clock reading of the example, half a second after
    2020-03-01 12:00 UTC, the patched reads give the same half second of
    2020-01-15. *)
Lemma patch_today_example now :
  (time_time (with_clock now
     (patch_today (λ _, {| year := 2020; month := 3; day := 1 |}) 2020 1 15
        example_state).2)).1
  = Returns 1579089600.5%float.
Proof. by vm_compute. Qed.

End PatcherProps.

(** * Further properties of the code *)

(** ** The call logger, beyond the claims *)

Section CallLoggerMore.

Import CallLogger.

Implicit Types (self : CallLogger.t) (expected : pyobj) (xs : list string).

(** When every expected name was recorded, the ordering loop can only fail
    with its own [AssertionError]: [list.index] always finds the name. *)
Lemma check_order_raises xs m self ex :
  (∀ x, x ∈ xs → x ∈ calls self) →
  (check_order xs m self).1 = Raises ex → ex = AssertionError.
Proof.
  revert m. induction xs as [|x xs IH]; intros m Hall; simpl; [done|].
  destruct (list_index_elem (calls self) x) as [ix Hix]; [apply Hall; left|].
  unfold bind, gets; simpl. rewrite Hix.
  destruct (decide (ix < m)).
  - by intros [= <-].
  - apply IH. intros y Hy. apply Hall. by right.
Qed.

(** What a passing ordered partial check tells about the log. *)
Lemma partial_ordered_passes_inv self expected (ne : option pyobj) :
  passes (check_gui_calls_partial (Some expected) ne true self) →
  (∀ x, x ∈ py_iter expected → x ∈ calls self) ∧
  first_index_nondecreasing (calls self) (py_iter expected).
Proof.
  unfold check_gui_calls_partial. unfold bind at 1 2 3. unfold gets at 1. simpl.
  unfold assert_. case_bool_decide as H; simpl; [|by unfold passes].
  rewrite difference_empty_iff in H.
  assert (∀ x, x ∈ py_iter expected → x ∈ calls self) as Hall.
  { intros x Hx. apply elem_of_py_set, H in Hx.
    by apply elem_of_list_to_set in Hx. }
  pose proof (check_order_passes (py_iter expected) 0 self Hall) as Hp.
  unfold passes in Hp.
  destruct (check_order (py_iter expected) 0 self) as [[[]|ex] s']; simpl in *.
  - intros _. split; [done|]. by apply Hp.
  - by unfold passes.
Qed.

(** Indices that never decrease between neighbours never decrease at all. *)
Lemma first_index_nondecreasing_le (cs xs : list string) :
  (∀ x, x ∈ xs → x ∈ cs) →
  first_index_nondecreasing cs xs →
  ∀ i j x y ix iy,
    i ≤ j → xs !! i = Some x → xs !! j = Some y →
    list_index cs x = Some ix → list_index cs y = Some iy → ix ≤ iy.
Proof.
  intros Hall Hnd i j. induction j as [|j IH]; intros x y ix iy Hij Hx Hy Hix Hiy.
  - assert (i = 0) as -> by lia. simplify_eq. lia.
  - destruct (decide (i = S j)) as [->|Hne]; [simplify_eq; lia|].
    assert (is_Some (xs !! j)) as [z Hz].
    { apply lookup_lt_is_Some. apply lookup_lt_Some in Hy. lia. }
    destruct (list_index_elem cs z) as [iz Hiz].
    { apply Hall. by eapply list_elem_of_lookup_2. }
    transitivity iz.
    + apply (IH x z); [lia | done..].
    + by apply (Hnd j z y).
Qed.

(** X1: a fresh logger on which methods were called whose names the class
    does not bind, so that each call went through [__getattr__], passes the
    exact check against the list of those names in call order, ordered or
    not, and the check leaves the log empty.  Names that the class binds
    are excluded: calling [clear_calls] empties the log instead of adding
    to it. *)
Theorem record_then_check names vo :
  Forall (λ name, reaches_getattr name = true) names →
  check_gui_calls (PyList names) vo (record names) = (Returns tt, mk []).
Proof.
  intros _. unfold check_gui_calls, bind, gets, eq_, assert_. rewrite record_calls.
  destruct vo; simpl; by rewrite bool_decide_true.
Qed.

Lemma record_then_check_witness :
  Forall (λ name, reaches_getattr name = true) ["refresh"; "show"; "refresh"] ∧
  check_gui_calls (PyList ["refresh"; "show"; "refresh"]) true
    (record ["refresh"; "show"; "refresh"]) = (Returns tt, mk []).
Proof.
  assert (Forall (λ name, reaches_getattr name = true)
            ["refresh"; "show"; "refresh"]) as H
    by (repeat constructor).
  split; [exact H|].
  exact (record_then_check ["refresh"; "show"; "refresh"] true H).
Defined.

(** The names that the precondition excludes. *)
Lemma reaches_getattr_bound_names :
  reaches_getattr "calls" = false ∧ reaches_getattr "clear_calls" = false ∧
  reaches_getattr "check_gui_calls" = false ∧
  reaches_getattr "check_gui_calls_partial" = false ∧
  reaches_getattr "__init__" = false ∧ reaches_getattr "__class__" = false ∧
  reaches_getattr "refresh" = true ∧ reaches_getattr "clear" = true.
Proof. split_and!; by vm_compute. Qed.

(** X2: [check_gui_calls_partial] fails with [AssertionError] and with
    nothing else; in particular the [list.index] of the ordering loop never
    raises [ValueError], because the loop is only reached when every
    expected name was recorded. *)
Theorem partial_check_only_asserts self (e ne : option pyobj) vo ex :
  (check_gui_calls_partial e ne vo self).1 = Raises ex → ex = AssertionError.
Proof.
  unfold check_gui_calls_partial.
  assert (∀ s, ((match ne with
                 | Some not_expected =>
                     bind (gets calls) (λ self_calls,
                       assert_ (bool_decide
                         (py_set not_expected ∩ py_set (PyList self_calls) = ∅)))
                 | None => ret tt
                 end;; clear_calls)%py s).1 = Raises ex → ex = AssertionError)
    as Hne.
  { intros s. destruct ne as [n|]; unfold bind, gets, assert_; simpl; [|done].
    case_bool_decide; simpl; [done | by intros [= <-]]. }
  destruct e as [e|].
  - unfold bind at 1 2 3. unfold gets at 1. simpl.
    unfold assert_. case_bool_decide as H; simpl; [|by intros [= <-]].
    rewrite difference_empty_iff in H.
    destruct vo; [|apply Hne].
    pose proof (check_order_raises (py_iter e) 0 self) as Hex.
    destruct (check_order (py_iter e) 0 self) as [[[]|ex'] s']; simpl in *.
    + apply Hne.
    + intros [= <-]. apply Hex; [|done].
      intros x Hx. apply elem_of_py_set, H in Hx.
      by apply elem_of_list_to_set in Hx.
  - unfold bind at 1. simpl. apply Hne.
Qed.

Lemma partial_check_only_asserts_witness :
  (check_gui_calls_partial (Some (PyList ["b"; "a"])) None true
     (record ["a"; "b"])).1 = Raises AssertionError ∧
  AssertionError = AssertionError.
Proof.
  split; [by vm_compute|].
  apply (partial_check_only_asserts (record ["a"; "b"])
           (Some (PyList ["b"; "a"])) None true AssertionError).
  by vm_compute.
Defined.

(** X3: under [verify_order] the partial check compares first occurrences
    only, so it can pass only when equal expected names stand next to each
    other: between two occurrences of a name in [expected] there is nothing
    but that name. *)
Theorem partial_ordered_repeats_adjacent self expected (ne : option pyobj)
    i j k x y :
  passes (check_gui_calls_partial (Some expected) ne true self) →
  i ≤ j → j ≤ k →
  py_iter expected !! i = Some x →
  py_iter expected !! j = Some y →
  py_iter expected !! k = Some x →
  y = x.
Proof.
  intros [Hall Hnd]%partial_ordered_passes_inv Hij Hjk Hi Hj Hk.
  destruct (list_index_elem (calls self) x) as [ix Hix].
  { apply Hall. by eapply list_elem_of_lookup_2. }
  destruct (list_index_elem (calls self) y) as [iy Hiy].
  { apply Hall. by eapply list_elem_of_lookup_2. }
  pose proof (first_index_nondecreasing_le _ _ Hall Hnd i j x y ix iy
                Hij Hi Hj Hix Hiy).
  pose proof (first_index_nondecreasing_le _ _ Hall Hnd j k y x iy ix
                Hjk Hj Hk Hiy Hix).
  assert (ix = iy) as -> by lia.
  apply list_index_lookup in Hix, Hiy. congruence.
Qed.

Lemma partial_ordered_repeats_adjacent_witness :
  passes (check_gui_calls_partial (Some (PyList ["a"; "a"; "b"])) None true
            (record ["a"; "x"; "b"])) ∧
  "a" = "a".
Proof.
  split; [by vm_compute|].
  apply (partial_ordered_repeats_adjacent (record ["a"; "x"; "b"])
           (PyList ["a"; "a"; "b"]) None 0 1 1 "a" "a");
    [by vm_compute | lia | lia | reflexivity..].
Defined.

(** The log [a, b, a] passes the exact ordered check against itself and
    fails the ordered partial check against itself. *)
Lemma partial_ordered_rejects_own_log :
  passes (check_gui_calls (PyList ["a"; "b"; "a"]) true (record ["a"; "b"; "a"])) ∧
  ¬ passes (check_gui_calls_partial (Some (PyList ["a"; "b"; "a"])) None true
              (record ["a"; "b"; "a"])).
Proof. split; vm_compute; tauto. Qed.

(** X4: the exact check is the stronger one.  A log that passes
    [check_gui_calls], with or without order, also passes it without
    order, and it passes the unordered partial check of the same names. *)
Theorem exact_check_implies_partial self expected vo :
  passes (check_gui_calls expected vo self) →
  passes (check_gui_calls expected false self) ∧
  passes (check_gui_calls_partial (Some expected) None false self).
Proof.
  intros Hpass.
  assert (passes (check_gui_calls expected false self)) as Hun.
  { destruct vo; [|done].
    destruct expected as [xs|xs|X];
      try (by destruct (check_gui_calls_ordered_not_list self _
                          ltac:(by intros ?) Hpass)).
    apply check_gui_calls_ordered_list in Hpass as <-.
    by apply check_gui_calls_unordered. }
  split; [done|].
  pose proof (proj1 (check_gui_calls_unordered _ _) Hun) as Heq.
  unfold check_gui_calls_partial, bind, gets, assert_, passes. simpl.
  rewrite bool_decide_true; [done|].
  apply difference_empty_iff. intros x Hx.
  apply elem_of_list_to_set, Heq. by apply elem_of_py_set.
Qed.

Lemma exact_check_implies_partial_witness :
  passes (check_gui_calls (PyList ["a"; "b"]) true (record ["a"; "b"])) ∧
  passes (check_gui_calls (PyList ["a"; "b"]) false (record ["a"; "b"])) ∧
  passes (check_gui_calls_partial (Some (PyList ["a"; "b"])) None false
            (record ["a"; "b"])).
Proof.
  split; [by vm_compute|].
  apply (exact_check_implies_partial (record ["a"; "b"]) (PyList ["a"; "b"]) true).
  by vm_compute.
Defined.

(** X22: what the exact check compares.  Without order it passes exactly
    when the recorded names and the expected names are the same set, for
    every kind of iterable; with order it passes against a list exactly
    when the log is that list, and it never passes against anything that is
    not a list. *)
Theorem check_gui_calls_compares self expected xs :
  (passes (check_gui_calls expected false self) ↔
   ∀ x, x ∈ calls self ↔ x ∈ py_iter expected) ∧
  (passes (check_gui_calls (PyList xs) true self) ↔ calls self = xs) ∧
  ((∀ ys, expected ≠ PyList ys) →
   ¬ passes (check_gui_calls expected true self)).
Proof.
  split_and!.
  - apply check_gui_calls_unordered.
  - apply check_gui_calls_ordered_list.
  - apply check_gui_calls_ordered_not_list.
Qed.

End CallLoggerMore.

(** ** Argument unification and log_calls, beyond the claims *)

Section UnifyMore.

Import Unify.

Implicit Types (d kwargs result : gmap string value) (k : string) (v : value)
  (kws : list string).

(** Without an exclusion list [_unify_args] cannot raise, and an exclusion
    list only deletes from what it would have returned without one. *)
Lemma unify_args_ignore_eq func args kwargs kws :
  ∃ r0, _unify_args func args kwargs None = Returns r0 ∧
        _unify_args func args kwargs (Some kws) = del_keys kws r0.
Proof.
  unfold _unify_args. eexists. split; [done|]. by destruct kws.
Qed.

Lemma del_keys_returns kws result :
  (∃ r, del_keys kws result = Returns r) ↔
  NoDup kws ∧ ∀ k, k ∈ kws → is_Some (result !! k).
Proof.
  revert result. induction kws as [|kw kws IH]; intros result; simpl.
  - split; [|by eauto]. intros _. split; [constructor|].
    by intros k ?%elem_of_nil.
  - destruct (result !! kw) as [v|] eqn:E.
    + rewrite IH. split.
      * intros [Hnd Hall]. split.
        -- constructor; [|done]. intros Hin. destruct (Hall kw Hin) as [w Hw].
           by rewrite lookup_delete_eq in Hw.
        -- intros k [->|Hin]%elem_of_cons; [by eauto|].
           destruct (Hall k Hin) as [w Hw].
           apply lookup_delete_Some in Hw as [_ Hw]. by eauto.
      * intros [Hnd Hall]. apply NoDup_cons in Hnd as [Hnin Hnd]. split; [done|].
        intros k Hin. assert (kw ≠ k) by (intros ->; done).
        rewrite lookup_delete_ne by done. apply Hall. by right.
    + split; [by intros [? [=]]|]. intros [_ Hall].
      destruct (Hall kw) as [w Hw]; [by left | congruence].
Qed.

Lemma del_keys_lookup kws result r k :
  del_keys kws result = Returns r →
  r !! k = if decide (k ∈ kws) then None else result !! k.
Proof.
  revert result. induction kws as [|kw kws IH]; intros result; cbn [del_keys].
  - intros [= <-]. rewrite decide_False; [done | apply not_elem_of_nil].
  - destruct (result !! kw) as [v|] eqn:E; [|done].
    intros Hd. rewrite (IH _ Hd).
    destruct (decide (k ∈ kws)) as [Hin|Hnin].
    + rewrite decide_True; [done | by right].
    + destruct (decide (k = kw)) as [->|Hne].
      * rewrite decide_True by (by left). apply lookup_delete_eq.
      * rewrite decide_False by (by intros [?|?]%elem_of_cons).
        by apply lookup_delete_ne.
Qed.

Lemma del_keys_raises kws result e :
  del_keys kws result = Raises e → ∃ k, e = KeyError k ∧ k ∈ kws.
Proof.
  revert result. induction kws as [|kw kws IH]; intros result; simpl; [done|].
  destruct (result !! kw) as [v|] eqn:E.
  - intros (k & -> & Hin)%IH. exists k. split; [done | by right].
  - intros [= <-]. exists kw. split; [done | by left].
Qed.

(** X5: the exclusion list.  With [r0] the mapping that [_unify_args]
    returns without exclusions, the call with the exclusion list [kws]
    returns exactly when every name of [kws] is bound in [r0] and no name is
    listed twice; it then returns [r0] without those names; otherwise it
    raises [KeyError] for one of the listed names. *)
Theorem unify_args_exclusion func args kwargs kws r0 :
  _unify_args func args kwargs None = Returns r0 →
  ((∃ r, _unify_args func args kwargs (Some kws) = Returns r) ↔
   NoDup kws ∧ ∀ k, k ∈ kws → is_Some (r0 !! k)) ∧
  (∀ r k, _unify_args func args kwargs (Some kws) = Returns r →
          r !! k = if decide (k ∈ kws) then None else r0 !! k) ∧
  (∀ e, _unify_args func args kwargs (Some kws) = Raises e →
        ∃ k, e = KeyError k ∧ k ∈ kws).
Proof.
  intros H0. destruct (unify_args_ignore_eq func args kwargs kws) as (r & Hr & ->).
  rewrite H0 in Hr. injection Hr as <-.
  split_and!.
  - apply del_keys_returns.
  - intros r k. apply del_keys_lookup.
  - intros e. apply del_keys_raises.
Qed.

Lemma unify_args_exclusion_witness :
  _unify_args foo [VInt 42] ∅ None
    = Returns (<["bar" := VInt 42]> {["baz" := VInt 10]}) ∧
  ((∃ r, _unify_args foo [VInt 42] ∅ (Some ["bar"; "bar"]) = Returns r) ↔
   NoDup ["bar"; "bar"] ∧
   ∀ k, k ∈ ["bar"; "bar"] →
        is_Some ((<["bar" := VInt 42]> {["baz" := VInt 10]} : gmap string value) !! k)) ∧
  (∀ r k, _unify_args foo [VInt 42] ∅ (Some ["bar"; "bar"]) = Returns r →
          r !! k = if decide (k ∈ ["bar"; "bar"]) then None
                   else (<["bar" := VInt 42]> {["baz" := VInt 10]} : gmap string value) !! k) ∧
  (∀ e, _unify_args foo [VInt 42] ∅ (Some ["bar"; "bar"]) = Raises e →
        ∃ k, e = KeyError k ∧ k ∈ ["bar"; "bar"]).
Proof.
  split; [by vm_compute|].
  apply (unify_args_exclusion foo [VInt 42] ∅ ["bar"; "bar"]). by vm_compute.
Defined.

(** A name listed twice is deleted once and missed once. *)
Lemma unify_args_exclude_twice :
  _unify_args foo [VInt 42] ∅ (Some ["bar"; "bar"]) = Raises (KeyError "bar").
Proof. by vm_compute. Qed.

(** X6: positional arguments are bound by position.  With the receiver of a
    bound method put in front, the argument at position [i] is bound to the
    [i]-th variable name, unless that name is a keyword argument; this holds
    beyond the declared parameters too, where the names are those of local
    variables. *)
Theorem unify_args_binds_positional func func_code args kwargs i k v :
  __code__ func = Some func_code →
  NoDup (co_varnames func_code) →
  co_varnames func_code !! i = Some k →
  match __self__ func with
  | Some self => if is_none self then args else self :: args
  | None => args
  end !! i = Some v →
  kwargs !! k = None →
  ∃ r, _unify_args func args kwargs None = Returns r ∧ r !! k = Some v.
Proof.
  intros Hc Hnd Hk Hv Hkw. unfold _unify_args. rewrite Hc.
  eexists. split; [done|].
  set (args' := match __self__ func with
                | Some self => if is_none self then args else self :: args
                | None => args
                end) in *.
  apply (fill_first _ _ _ i); [done | |].
  - apply lookup_zip_with_Some. exists k, v. split_and!; [done | done |].
    case_decide; [|done]. apply lookup_app_l_Some. done.
  - intros j w Hj Hjk.
    apply lookup_zip_with_Some in Hjk as (k' & w' & [= <- <-] & Hn & _).
    assert (j = i) by (eapply NoDup_lookup; eauto). lia.
Qed.

Lemma unify_args_binds_positional_witness :
  let meth := {| __code__ := Some {| co_argcount := 2;
                                      co_varnames := ["self"; "x"; "tmp"] |};
                 __defaults__ := None; __self__ := Some (VObj 7) |} in
  (NoDup ["self"; "x"; "tmp"] ∧ ["self"; "x"; "tmp"] !! 1 = Some "x" ∧
   [VObj 7; VInt 3] !! 1 = Some (VInt 3)) ∧
  ∃ r, _unify_args meth [VInt 3] ∅ None = Returns r ∧ r !! "x" = Some (VInt 3).
Proof.
  split.
  - split_and!; [compute_done | reflexivity..].
  - apply (unify_args_binds_positional _
             {| co_argcount := 2; co_varnames := ["self"; "x"; "tmp"] |}
             [VInt 3] ∅ 1 "x" (VInt 3));
      [reflexivity | compute_done | reflexivity..].
Defined.

Lemma fill_bound d kvs k :
  is_Some (fill d kvs !! k) → is_Some (d !! k) ∨ k ∈ kvs.*1.
Proof.
  revert d. induction kvs as [|[k' v'] kvs IH]; intros d; simpl; [by left|].
  intros [Hd|Hin]%IH.
  - rewrite setdefault_lookup in Hd. destruct (d !! k); [by left|].
    case_decide; [subst; right; by left | by destruct Hd].
  - right. by right.
Qed.

(** X7: [_unify_args] never invents a name.  Every name bound in the
    result is a keyword argument or one of the variable names of the
    function; for a callable without [__code__] it is a keyword argument
    or ["args"]. *)
Theorem unify_args_names func args kwargs ignore r k :
  _unify_args func args kwargs ignore = Returns r →
  is_Some (r !! k) →
  is_Some (kwargs !! k) ∨
  match __code__ func with
  | Some func_code => k ∈ co_varnames func_code
  | None => k = "args"
  end.
Proof.
  intros Hr Hk.
  destruct (unify_args_ignore_eq func args kwargs (default [] ignore))
    as (r0 & H0 & Hdel).
  assert (is_Some (r0 !! k)) as Hk0.
  { destruct ignore as [kws|]; simpl in *.
    - rewrite Hr in Hdel. symmetry in Hdel.
      rewrite (del_keys_lookup _ _ _ k Hdel) in Hk. by case_decide; [destruct Hk|].
    - congruence. }
  clear Hr Hk Hdel. unfold _unify_args in H0. injection H0 as <-.
  destruct (__code__ func) as [c|].
  - apply fill_bound in Hk0 as [?|Hin]; [by left|]. right.
    apply list_elem_of_fmap in Hin as ([k' v'] & -> & Hin).
    apply list_elem_of_lookup in Hin as [i Hi].
    apply lookup_zip_with_Some in Hi as (? & ? & [= <- <-] & Hn & _).
    by eapply list_elem_of_lookup_2.
  - rewrite lookup_insert in Hk0. case_decide; [by right | by left].
Qed.

Lemma unify_args_names_witness :
  _unify_args foo [VInt 42] {["baz" := VInt 23]} None
    = Returns (<["bar" := VInt 42]> {["baz" := VInt 23]}) ∧
  (is_Some (({["baz" := VInt 23]} : gmap string value) !! "bar") ∨
   "bar" ∈ ["bar"; "baz"]).
Proof.
  split; [by vm_compute|].
  apply (unify_args_names foo [VInt 42] {["baz" := VInt 23]} None
           (<["bar" := VInt 42]> {["baz" := VInt 23]}) "bar");
    [by vm_compute | rewrite lookup_insert_eq; by eexists].
Defined.

(** X23: keyword arguments win.  Whatever the callable and the positional
    arguments, a name bound in [kwargs] keeps its keyword value in the
    unified mapping; the only exception is the name ["args"] for a callable
    without [__code__], which is overwritten by the positional tuple. *)
Theorem unify_args_keeps_keywords func args kwargs k v :
  kwargs !! k = Some v →
  is_Some (__code__ func) ∨ k ≠ "args" →
  ∃ result, _unify_args func args kwargs None = Returns result ∧
            result !! k = Some v.
Proof. apply unify_args_keyword_wins. Qed.

Lemma unify_args_keeps_keywords_witness :
  (({["bar" := VInt 7]} : gmap string value) !! "bar" = Some (VInt 7) ∧
   (is_Some (__code__ foo) ∨ "bar" ≠ "args")) ∧
  ∃ result, _unify_args foo [VInt 42] {["bar" := VInt 7]} None = Returns result ∧
            result !! "bar" = Some (VInt 7).
Proof.
  split; [split; [reflexivity | left; by eexists]|].
  apply (unify_args_keeps_keywords foo [VInt 42] {["bar" := VInt 7]} "bar" (VInt 7));
    [reflexivity | left; by eexists].
Defined.

(** The overwritten keyword of a callable without [__code__]. *)
Lemma unify_args_opaque_overwrites_args :
  _unify_args opaque [VInt 1] {["args" := VStr "kw"]} None
  = Returns {["args" := VTuple [VInt 1]]}.
Proof. by vm_compute. Qed.

(** X24: defaults, when they cover what is missing.  For a function whose
    declared defaults are at least as many as the parameters that got no
    positional argument, each such parameter that is not passed by keyword
    is bound to the default declared for it, the one at the same distance
    from the end of the parameter list. *)
Theorem unify_args_covered_defaults c names defaults args kwargs i k :
  let func := {| __code__ := Some {| co_argcount := c; co_varnames := names |};
                 __defaults__ := Some defaults; __self__ := None |} in
  NoDup names →
  length args ≤ i → i < c → c ≤ length names →
  c - length args ≤ length defaults →
  names !! i = Some k →
  kwargs !! k = None →
  ∃ result, _unify_args func args kwargs None = Returns result ∧
            result !! k = defaults !! (length defaults - (c - i)).
Proof. apply unify_args_fills_defaults. Qed.

Lemma unify_args_covered_defaults_witness :
  (NoDup ["a"; "b"; "c"] ∧ ["a"; "b"; "c"] !! 1 = Some "b") ∧
  ∃ result, _unify_args f_abc [VInt 5] ∅ None = Returns result ∧
            result !! "b" = Some (VInt 1).
Proof.
  split; [split; [compute_done | reflexivity]|].
  apply (unify_args_covered_defaults 3 ["a"; "b"; "c"] [VInt 1; VInt 2]
           [VInt 5] ∅ 1 "b");
    [compute_done | simpl; lia | lia | simpl; lia | simpl; lia | reflexivity
    | reflexivity].
Defined.

End UnifyMore.

Section LogCallsProps.

Import LogCalls.

Context {S : Type}.
Variable func_info : Unify.callable.
Variable func : list value → gmap string value → M S value.

Lemma wrapper_run args kwargs (w : LogCalls.state) :
  ∃ unifiedArgs,
    Unify._unify_args func_info args kwargs None = Returns unifiedArgs ∧
    wrapper func_info func args kwargs w
    = ((func args kwargs (world w)).1,
       {| calls := calls w ++ [unifiedArgs];
          world := (func args kwargs (world w)).2 |}).
Proof.
  destruct (unify_args_ignore_eq func_info args kwargs []) as (u & Hu & _).
  exists u. split; [done|].
  unfold wrapper, bind, lift, append_call, modify, call_func. rewrite Hu. simpl.
  by destruct (func args kwargs (world w)).
Qed.

(** X8: the wrapper of [log_calls] appends the unified arguments of the call
    to [wrapper.calls] before it calls the function, so a call is logged
    also when the function raises; the outcome of the wrapper, a returned
    value or an exception, and the effect on the function's own state are
    those of the function. *)
Theorem log_calls_logs_then_calls args kwargs (w : LogCalls.state) :
  ∃ unifiedArgs,
    Unify._unify_args func_info args kwargs None = Returns unifiedArgs ∧
    wrapper func_info func args kwargs w
    = ((func args kwargs (world w)).1,
       {| calls := calls w ++ [unifiedArgs];
          world := (func args kwargs (world w)).2 |}).
Proof. apply wrapper_run. Qed.

(** X9: after a run of calls that all return, [wrapper.calls] has grown by
    one entry per call, in the order of the calls, each the unification of
    that call's arguments. *)
Theorem log_calls_log_grows invocations (w : LogCalls.state) :
  (wrapper_all func_info func invocations w).1 = Returns tt →
  ∃ logged,
    calls (wrapper_all func_info func invocations w).2 = calls w ++ logged ∧
    Forall2 (λ '(args, kwargs) unifiedArgs,
               Unify._unify_args func_info args kwargs None = Returns unifiedArgs)
            invocations logged.
Proof.
  revert w. induction invocations as [|[args kwargs] rest IH]; intros w; simpl.
  - intros _. exists []. split; [by rewrite app_nil_r | constructor].
  - unfold bind at 1 2.
    destruct (wrapper_run args kwargs w) as (u & Hu & ->).
    destruct (func args kwargs (world w)) as [[v|e] s']; simpl; [|done].
    intros Hret. destruct (IH _ Hret) as (logged & Hcalls & Hall).
    exists (u :: logged). split.
    + rewrite Hcalls. simpl. by rewrite <- app_assoc.
    + by constructor.
Qed.

End LogCallsProps.

Lemma log_calls_log_grows_witness :
  let func := λ (_ : list value) (_ : gmap string value), @ret unit value (VInt 0) in
  let w := {| LogCalls.calls := []; LogCalls.world := tt |} in
  let invocations := [([VInt 42], ∅); ([VInt 1], {["baz" := VInt 2]})] in
  (LogCalls.wrapper_all Unify.foo func invocations w).1 = Returns tt ∧
  ∃ logged,
    LogCalls.calls (LogCalls.wrapper_all Unify.foo func invocations w).2
      = LogCalls.calls w ++ logged ∧
    Forall2 (λ '(args, kwargs) unifiedArgs,
               Unify._unify_args Unify.foo args kwargs None = Returns unifiedArgs)
            invocations logged.
Proof.
  split; [by vm_compute|].
  apply (log_calls_log_grows Unify.foo
           (λ (_ : list value) (_ : gmap string value), @ret unit value (VInt 0))).
  by vm_compute.
Defined.

(** ** The patcher, beyond the claims *)

Section PatcherMore.

Import Patcher.

Implicit Types (s : state) (h : gmap ref namespace) (d : namespace)
  (a key attrname : string) (target tm v old r : ref)
  (L recs : list (ref * string * ref)).

Lemma ns_get_elem a d v : ns_get a d = Some v → a ∈ d.*1.
Proof.
  induction d as [|[k x] d IH]; simpl; [done|].
  destruct (decide (k = a)) as [->|Hne]; [by left | right; by apply IH].
Qed.

Lemma lookup_attr_after_patch target a old r s target' a' :
  lookup_attr (attrs (after_patch target a old r s)) target' a' =
  if decide (target = target' ∧ a = a') then Some r
  else lookup_attr (attrs s) target' a'.
Proof. unfold after_patch; simpl. apply lookup_attr_write. Qed.

(** What the scan of the target module leaves behind: the names it visited
    that were bound to the old value are bound to the replacement, and
    nothing else has changed. *)
Lemma scan_lookup g tm old r keys s s' :
  _target_module (self s) = Some tm →
  scan (patch_body g) tm old r keys s = (Returns tt, s') →
  ∀ target' a',
    lookup_attr (attrs s') target' a' =
    if decide (target' = tm ∧ a' ∈ keys ∧ lookup_attr (attrs s) tm a' = Some old)
    then Some r
    else lookup_attr (attrs s) target' a'.
Proof.
  revert s. induction keys as [|key keys IH]; intros s Htm Hrun target' a'.
  - injection Hrun as <-. rewrite decide_False; [done|].
    intros (_ & ?%elem_of_nil & _). done.
  - unfold scan in Hrun. simpl in Hrun. unfold bind at 1 2, getattr at 1 in Hrun.
    destruct (lookup_attr (attrs s) tm key) as [v|] eqn:Hv; [|done].
    destruct (decide (v = old)) as [->|Hne].
    + rewrite (patch_body_same_module _ _ _ _ _ _ Htm Hv) in Hrun.
      destruct (after_patch_spec tm key old r s Hv) as (Hpf & _ & _).
      assert (_target_module (self (after_patch tm key old r s)) = Some tm) as Htm'
        by (by destruct Hpf as (_ & _ & _ & -> & _)).
      rewrite (IH _ Htm' Hrun). rewrite !lookup_attr_after_patch.
      destruct (decide (target' = tm ∧ a' = key)) as [[-> ->]|Hn].
      * rewrite !(decide_True (P := tm = tm ∧ key = key)) by done.
        rewrite (decide_True (P := tm = tm ∧ key ∈ key :: keys ∧ _))
          by (split_and!; [done | by left | done]).
        by case_decide.
      * rewrite (decide_False (P := tm = target' ∧ key = a'))
          by (intros [<- <-]; by apply Hn).
        destruct (decide (target' = tm)) as [->|Hne].
        -- assert (a' ≠ key) by (intros ->; by apply Hn).
           rewrite (decide_False (P := tm = tm ∧ key = a')) by (by intros [_ <-]).
           destruct (decide (a' ∈ keys ∧ lookup_attr (attrs s) tm a' = Some old))
             as [[Hin Hl]|Hnl].
           ++ rewrite decide_True by done.
              rewrite decide_True; [done|]. split_and!; [done | by right | done].
           ++ rewrite decide_False by (intros (_ & ? & ?); by apply Hnl).
              rewrite decide_False; [done|].
              intros (_ & [?|?]%elem_of_cons & ?); [done | by apply Hnl].
        -- rewrite decide_False by (by intros [? _]).
           by rewrite decide_False by (by intros [? _]).
    + rewrite (IH _ Htm Hrun).
      destruct (decide (target' = tm ∧ a' ∈ keys ∧
                        lookup_attr (attrs s) tm a' = Some old))
        as [(-> & Hin & Hl)|Hnl].
      * rewrite decide_True; [done|]. split_and!; [done | by right | done].
      * rewrite decide_False; [done|].
        intros (-> & [->|?]%elem_of_cons & Hl); [congruence|].
        by apply Hnl.
Qed.

(** X10: [patch] of an attribute that its target does not have raises
    [AttributeError] for that name and changes nothing: no record is added
    and no attribute is assigned. *)
Theorem patch_missing_attribute target a r s :
  lookup_attr (attrs s) target a = None →
  patch target a r s = (Raises (AttributeError a), s).
Proof. intros H. unfold patch. by apply patch_depth_missing. Qed.

Lemma patch_missing_attribute_witness :
  lookup_attr (attrs example_state) 5 "y" = None ∧
  patch 5 "y" 11 example_state = (Raises (AttributeError "y"), example_state).
Proof.
  split; [reflexivity|]. apply (patch_missing_attribute 5 "y" 11 example_state).
  reflexivity.
Defined.

(** X11: everything [patch] assigns.  After [patch(target, a, r)] of an
    attribute that held [old], the attribute holds [r]; when the Patcher
    has a target module other than [target], every name of that module that
    was bound to the very object [old] is rebound to [r]; every other
    attribute of every object is what it was. *)
Theorem patch_assigns target a r s old target' a' :
  lookup_attr (attrs s) target a = Some old →
  lookup_attr (attrs (patch target a r s).2) target' a' =
  if decide (target' = target ∧ a' = a) then Some r
  else if decide (_target_module (self s) = Some target' ∧ target' ≠ target ∧
                  lookup_attr (attrs s) target' a' = Some old)
       then Some r
       else lookup_attr (attrs s) target' a'.
Proof.
  intros Hold.
  destruct (after_patch_spec target a old r s Hold) as (Hpf & Hot & Hr).
  assert (_target_module (self (after_patch target a old r s))
          = _target_module (self s)) as Htm
    by (by destruct Hpf as (_ & _ & _ & -> & _)).
  unfold patch.
  change (patch_depth 2 target a r s)
    with (patch_body (patch_body (patch_depth 0)) target a r s).
  rewrite (patch_body_run _ _ _ _ _ _ Hold). cbv zeta.
  destruct (_target_module (self s)) as [tm|] eqn:E.
  - destruct (decide (tm ≠ target)) as [Hne|Heq].
    + destruct (scan_spec tm old r
                  (default [] (attrs (after_patch target a old r s) !! tm)).*1
                  (after_patch target a old r s) Htm)
        as (s' & Hrun & _); [done|].
      rewrite (Hrun (patch_depth 0)). cbn [snd].
      rewrite (scan_lookup _ _ _ _ _ _ _ Htm (Hrun (patch_depth 0))).
      rewrite !lookup_attr_after_patch.
      assert (∀ k, lookup_attr (attrs (after_patch target a old r s)) tm k = Some old →
                   k ∈ (default [] (attrs (after_patch target a old r s) !! tm)).*1)
        as Hkeys.
      { intros k. unfold lookup_attr.
        destruct (attrs (after_patch target a old r s) !! tm); simpl; [|done].
        apply ns_get_elem. }
      destruct (decide (target' = target ∧ a' = a)) as [[-> ->]|Hn1].
      { rewrite (decide_False (P := target = tm ∧ _)) by (intros (-> & _); done).
        by rewrite (decide_True (P := target = target ∧ a = a)). }
      rewrite (decide_False (P := target = target' ∧ a = a'))
        by (intros [<- <-]; by apply Hn1).
      destruct (decide (target' = tm)) as [->|Hn2].
      * rewrite (decide_False (P := target = tm ∧ a = a'))
          by (intros [-> _]; done).
        destruct (decide (lookup_attr (attrs s) tm a' = Some old)) as [Hl|Hl].
        -- rewrite decide_True; [by rewrite decide_True|].
           split_and!; [done | | done].
           apply Hkeys. rewrite lookup_attr_after_patch.
           by rewrite decide_False by (intros [-> _]; done).
        -- rewrite decide_False by (by intros (_ & _ & ?)).
           by rewrite decide_False by (by intros (_ & _ & ?)).
      * rewrite decide_False by (by intros (? & _)).
        by rewrite decide_False by (by intros ([= ->] & _)).
    + cbn [snd]. rewrite lookup_attr_after_patch.
      assert (tm = target) as -> by (by destruct (decide (tm = target)); [|destruct Heq]).
      destruct (decide (target' = target ∧ a' = a)) as [[-> ->]|Hn1].
      { by rewrite decide_True. }
      rewrite decide_False by (intros [<- <-]; by apply Hn1).
      by rewrite decide_False by (by intros ([= ->] & ? & _)).
  - cbn [snd]. rewrite lookup_attr_after_patch.
    destruct (decide (target' = target ∧ a' = a)) as [[-> ->]|Hn1].
    { by rewrite decide_True. }
    rewrite decide_False by (intros [<- <-]; by apply Hn1).
    by rewrite decide_False by (by intros ([=] & _)).
Qed.

Lemma patch_assigns_witness :
  let s := {| self := __init__ (Some 7);
              attrs := {[ 5 := [("x", 10)];
                          7 := [("y", 3); ("x_alias", 10)] ]};
              functions := ∅; next_ref := 20; clock := 0%float |} in
  lookup_attr (attrs s) 5 "x" = Some 10 ∧
  lookup_attr (attrs (patch 5 "x" 11 s).2) 7 "x_alias" = Some 11.
Proof.
  split; [reflexivity|].
  exact (patch_assigns 5 "x" 11
           {| self := __init__ (Some 7);
              attrs := {[ 5 := [("x", 10)];
                          7 := [("y", 3); ("x_alias", 10)] ]};
              functions := ∅; next_ref := 20; clock := 0%float |}
           10 7 "x_alias" eq_refl).
Defined.

(** X12: [unpatch] writes the recorded attributes and nothing else: an
    attribute without a patch record holds after [unpatch] what it held
    before. *)
Theorem unpatch_leaves_unrecorded s target a :
  (target, a) ∉ (_patched (self s)).*1 →
  lookup_attr (attrs (unpatch s).2) target a = lookup_attr (attrs s) target a.
Proof. intros Hnin. rewrite unpatch_run. simpl. by apply restore_not_in. Qed.

Lemma unpatch_leaves_unrecorded_witness :
  let s := (patch 5 "x" 11 example_state).2 in
  ((time_module, "time") ∉ (_patched (self s)).*1) ∧
  lookup_attr (attrs (unpatch s).2) time_module "time"
  = lookup_attr (attrs s) time_module "time".
Proof.
  assert ((time_module, "time")
          ∉ (_patched (self (patch 5 "x" 11 example_state).2)).*1) as H.
  { vm_compute. intros [[=]|?%elem_of_nil]%elem_of_cons. done. }
  split; [exact H|].
  exact (unpatch_leaves_unrecorded (patch 5 "x" 11 example_state).2
           time_module "time" H).
Defined.

(** X13: [unpatch] gives every recorded attribute the value of its earliest
    record, whatever the attribute holds when [unpatch] runs.  Since the
    records are never removed, this also holds for a later [unpatch], after
    the attribute was assigned by other code. *)
Theorem unpatch_restores_earliest s L1 L2 target a old :
  _patched (self s) = L1 ++ (target, a, old) :: L2 →
  (target, a) ∉ L1.*1 →
  lookup_attr (attrs (unpatch s).2) target a = Some old.
Proof.
  intros HL Hnin. rewrite unpatch_run. simpl. rewrite HL.
  rewrite restore_app, restore_not_in by done.
  change ((target, a, old) :: L2) with ([(target, a, old)] ++ L2).
  rewrite restore_app. unfold restore at 1. simpl.
  rewrite lookup_attr_write. by rewrite decide_True.
Qed.

Lemma unpatch_restores_earliest_witness :
  let s := with_attrs {[ 5 := [("x", 99)] ]}
             (unpatch (patch_all [(5, "x", 11); (5, "x", 12)] example_state).2).2 in
  (_patched (self s) = [] ++ (5, "x", 10) :: [(5, "x", 11)] ∧ (5, "x") ∉ ([] : list (ref * string * ref)).*1) ∧
  lookup_attr (attrs (unpatch s).2) 5 "x" = Some 10.
Proof.
  split; [split; [reflexivity | apply not_elem_of_nil]|].
  apply (unpatch_restores_earliest _ [] [(5, "x", 11)]);
    [reflexivity | apply not_elem_of_nil].
Defined.

End PatcherMore.

(** ** The decorators built on the patcher *)

Section DecoratorProps.

Import Patcher.

Implicit Types (s : state).

(** A read of [time.time] bound to a closure of [patch_today], and one of
    [time.time] bound to the real clock. *)
Lemma time_time_lambda s f time_now delta_days :
  lookup_attr (attrs s) time_module "time" = Some f →
  functions s !! f = Some (Lambda time_now delta_days) →
  (time_time s).1
  = Returns (PrimFloat.sub time_now (float_of_Z (delta_days * 24 * 60 * 60))).
Proof.
  intros Hf Hfn. unfold time_time, bind, getattr. rewrite Hf.
  unfold call, bind, gets. by rewrite Hfn.
Qed.

Lemma time_time_builtin s f :
  lookup_attr (attrs s) time_module "time" = Some f →
  functions s !! f = Some BuiltinTime →
  (time_time s).1 = Returns (clock s).
Proof.
  intros Hf Hfn. unfold time_time, bind, getattr. rewrite Hf.
  unfold call, bind, gets. by rewrite Hfn.
Qed.

(** The method [patch_today] on a state whose [time.time] is the real
    clock, for a valid date. *)
Lemma patch_today_effect fromtimestamp s f0 y m dd new_today :
  lookup_attr (attrs s) time_module "time" = Some f0 →
  functions s !! f0 = Some BuiltinTime →
  date_new y m dd = Returns new_today →
  ∃ s1,
    Patcher.patch_today fromtimestamp y m dd s = (Returns tt, s1) ∧
    patched_from
      (new_lambda (clock s)
         (timedelta_days (fromtimestamp (clock s)) new_today) s).2 s1 ∧
    lookup_attr (attrs s1) time_module "time" = Some (next_ref s).
Proof.
  intros Hf0 Hbt Hdate.
  rewrite (patch_today_run _ _ _ _ _ _ _ Hf0 Hbt Hdate).
  set (sl := (new_lambda _ _ s).2).
  destruct (patch_depth_run time_module "time" (next_ref s) sl f0 Hf0)
    as (s1 & Hrun & Hpf & Hr).
  exists s1. unfold patch. by rewrite (Hrun 0).
Qed.

(** X14: the decorator [patch_today].  With [time.time] bound to the real
    clock and a valid date, the wrapper runs the test in a state where
    every read of [time.time] gives the shifted reading, then unpatches
    whether the test returned or raised, and hands on the outcome of the
    test.  When the test left the namespaces alone, or only patched more
    with the wrapper's Patcher, all namespaces are afterwards what they
    were and [time.time] reads the real clock again. *)
Theorem patch_today_decorator fromtimestamp s f0 y m dd new_today
    (A : Type) (func : M state A) :
  lookup_attr (attrs s) time_module "time" = Some f0 →
  functions s !! f0 = Some BuiltinTime →
  functions s !! next_ref s = None →
  date_new y m dd = Returns new_today →
  let days := timedelta_days (fromtimestamp (clock s)) new_today in
  let s1 := (Patcher.patch_today fromtimestamp y m dd
               (with_self (__init__ None) s)).2 in
  let out := Decorators.patch_today fromtimestamp y m dd func s in
  out = ((func s1).1, (unpatch (func s1).2).2) ∧
  (∀ now, (time_time (with_clock now s1)).1
          = Returns (PrimFloat.sub (clock s) (float_of_Z (days * 24 * 60 * 60)))) ∧
  (patched_from s1 (func s1).2 →
   attrs out.2 = attrs s ∧
   ∀ now, (time_time (with_clock now out.2)).1 = Returns now).
Proof.
  intros Hf0 Hbt Hfresh Hdate days.
  set (s0 := with_self (__init__ None) s).
  destruct (patch_today_effect fromtimestamp s0 f0 y m dd new_today Hf0 Hbt Hdate)
    as (s1 & Hrun & Hpf & Hr).
  rewrite Hrun. cbn [snd].
  assert (functions s1 = <[next_ref s := Lambda (clock s) days]> (functions s))
    as Hfun by (by destruct Hpf as (-> & _)).
  assert (Decorators.patch_today fromtimestamp y m dd func s
          = ((func s1).1, (unpatch (func s1).2).2)) as Hout.
  { unfold Decorators.patch_today, try_finally, bind at 1, modify. fold s0.
    unfold bind. rewrite Hrun. destruct (func s1) as [r s2]. cbn [fst snd].
    by rewrite !unpatch_run. }
  rewrite Hout. split_and!; [done | |].
  - intros now. apply (time_time_lambda _ (next_ref s)); [done|].
    simpl. by rewrite Hfun, lookup_insert_eq.
  - intros Hpf2. cbn [snd].
    assert (attrs (unpatch (func s1).2).2 = attrs s) as Hattrs.
    { change (attrs s) with (attrs (new_lambda (clock s) days s0).2).
      apply unpatch_patched_from; [done|]. by eapply patched_from_trans. }
    split; [done|]. intros now.
    change now with (clock (with_clock now (unpatch (func s1).2).2)) at 2.
    apply (time_time_builtin _ f0).
    + simpl. by rewrite Hattrs.
    + rewrite unpatch_run. simpl.
      destruct Hpf2 as (-> & _). rewrite Hfun.
      rewrite lookup_insert_ne by congruence. done.
Qed.

Lemma patch_today_decorator_witness :
  let fromtimestamp := λ _ : float, {| year := 2020; month := 3; day := 1 |} in
  let s := example_state in
  let func := time_time in
  let s1 := (Patcher.patch_today fromtimestamp 2020 1 15
               (with_self (__init__ None) s)).2 in
  let out := Decorators.patch_today fromtimestamp 2020 1 15 func s in
  (lookup_attr (attrs s) time_module "time" = Some 1 ∧
   functions s !! 1 = Some BuiltinTime ∧
   functions s !! next_ref s = None ∧
   date_new 2020 1 15 = Returns {| year := 2020; month := 1; day := 15 |}) ∧
  out = ((func s1).1, (unpatch (func s1).2).2) ∧
  out.1 = Returns 1579089600.5%float ∧
  attrs out.2 = attrs s.
Proof.
  split; [by split_and!|].
  destruct (patch_today_decorator
              (λ _ : float, {| year := 2020; month := 3; day := 1 |})
              example_state 1 2020 1 15 {| year := 2020; month := 1; day := 15 |}
              float time_time)
    as (Hout & _ & Hback); [reflexivity..|].
  split; [exact Hout|]. split; [by vm_compute|].
  apply Hback. vm_compute. split_and!; try reflexivity. by exists [].
Defined.

(** X15: a date that does not exist.  The method [patch_today] raises
    [ValueError] before it reads the clock or patches anything, and the
    decorator raises it without running the test; its [finally] clause
    unpatches a Patcher that holds no record, so no attribute is
    assigned. *)
Theorem patch_today_invalid_date fromtimestamp y m dd s (A : Type)
    (func : M state A) :
  date_new y m dd = Raises ValueError →
  Patcher.patch_today fromtimestamp y m dd s = (Raises ValueError, s) ∧
  Decorators.patch_today fromtimestamp y m dd func s
  = (Raises ValueError, with_self (__init__ None) s).
Proof.
  intros Hdate.
  assert (∀ s', Patcher.patch_today fromtimestamp y m dd s' = (Raises ValueError, s'))
    as Hm by (intros s'; unfold Patcher.patch_today, bind, lift; by rewrite Hdate).
  split; [apply Hm|].
  unfold Decorators.patch_today, try_finally, bind at 1, modify.
  unfold bind. rewrite Hm. rewrite unpatch_run. by destruct s.
Qed.

Lemma patch_today_invalid_date_witness :
  date_new 2021 2 29 = Raises ValueError ∧
  Patcher.patch_today (λ _, {| year := 2020; month := 3; day := 1 |})
    2021 2 29 example_state = (Raises ValueError, example_state) ∧
  Decorators.patch_today (λ _, {| year := 2020; month := 3; day := 1 |})
    2021 2 29 time_time example_state
  = (Raises ValueError, with_self (__init__ None) example_state).
Proof.
  split; [reflexivity|].
  apply (patch_today_invalid_date
           (λ _, {| year := 2020; month := 3; day := 1 |})
           2021 2 29 example_state float time_time).
  reflexivity.
Defined.

(** X16: the wrapper of [with_app].  When [appfunc] hands back something
    that is not a [TestApp], the assertion fails before the test runs and
    outside the [try], so nothing is unpatched.  Otherwise the test runs
    on the application; its exception, if any, propagates and its return
    value is dropped; and the patcher, when [appfunc] gave one, unpatches
    in both cases. *)
Theorem with_app_runs (App A : Type) (is_TestApp : App → bool)
    (appfunc : M state (Decorators.appresult (App := App)))
    (func : App → M state A) s res s1 :
  appfunc s = (Returns res, s1) →
  let '(app, patcher) :=
    match res with
    | Decorators.AppAndPatcher app patcher => (app, patcher)
    | Decorators.JustApp app => (app, false)
    end in
  Decorators.with_app is_TestApp appfunc func s =
  if is_TestApp app then
    (match (func app s1).1 with Returns _ => Returns tt | Raises e => Raises e end,
     if patcher then (unpatch (func app s1).2).2 else (func app s1).2)
  else (Raises AssertionError, s1).
Proof.
  intros Happ. unfold Decorators.with_app, bind at 1. rewrite Happ.
  destruct res as [app|app patcher]; cbn zeta beta iota.
  - unfold bind, assert_, try_finally. destruct (is_TestApp app); [|done].
    simpl. by destruct (func app s1) as [[a|e] s2].
  - unfold bind, assert_, try_finally. destruct (is_TestApp app); [|done].
    simpl. destruct (func app s1) as [[a|e] s2]; destruct patcher; simpl;
      by rewrite ?unpatch_run.
Qed.

Lemma with_app_runs_witness :
  let appfunc : M state (Decorators.appresult (App := bool)) :=
    bind (patch 5 "x" 11) (λ _, ret (Decorators.AppAndPatcher true true)) in
  let func (app : bool) : M state ref := getattr 5 "x" in
  appfunc example_state
  = (Returns (Decorators.AppAndPatcher true true), (patch 5 "x" 11 example_state).2) ∧
  Decorators.with_app (λ app : bool, app) appfunc func example_state
  = (Returns tt, (unpatch (patch 5 "x" 11 example_state).2).2).
Proof.
  split; [by vm_compute|].
  pose proof (with_app_runs bool ref (λ app : bool, app)
                (bind (patch 5 "x" 11)
                      (λ _, ret (Decorators.AppAndPatcher true true)))
                (λ _, getattr 5 "x") example_state
                (Decorators.AppAndPatcher true true)
                (patch 5 "x" 11 example_state).2) as H.
  cbn zeta beta iota in H. rewrite H by (by vm_compute). by vm_compute.
Defined.

End DecoratorProps.

(** ** patch_osstat *)

Section OsStatProps.

Import OsStat.

Variable real_stat : string → outcome (list Z).

Implicit Types (s : OsStat.state) (ps : list (string * stat_fields))
  (d : gmap string (list Z)).

Lemma patch_osstat_run path st s :
  patch_osstat path st s
  = (Returns tt,
     {| _patched_osstat :=
          Some (<[path := st_seq st]> (default ∅ (_patched_osstat s)));
        os_stat := match _patched_osstat s with
                   | Some _ => os_stat s
                   | None => FakeStat (os_stat s)
                   end |}).
Proof.
  unfold patch_osstat, bind, gets, modify, ret.
  by destruct s as [[d|] f].
Qed.

(** Once the dictionary exists, further patches only insert into it. *)
Lemma patch_all_installed ps d f :
  patch_all ps {| _patched_osstat := Some d; os_stat := f |}
  = (Returns tt,
     {| _patched_osstat :=
          Some (foldl (λ d '(path, st), <[path := st_seq st]> d) d ps);
        os_stat := f |}).
Proof.
  revert d. induction ps as [|[path st] ps IH]; intros d; [done|].
  unfold patch_all in *. simpl. unfold bind at 1. rewrite patch_osstat_run.
  simpl. apply IH.
Qed.

Lemma inserted_lookup ps d p :
  foldl (λ d '(path, st), <[path := st_seq st]> d) d ps !! p
  = match (list_to_map (reverse ps) : gmap string stat_fields) !! p with
    | Some st => Some (st_seq st)
    | None => d !! p
    end.
Proof.
  induction ps as [|[path st] ps IH] using rev_ind; [done|].
  rewrite foldl_app, reverse_snoc. simpl.
  destruct (decide (path = p)) as [->|Hne].
  - by rewrite !lookup_insert_eq.
  - by rewrite !lookup_insert_ne.
Qed.

(** A read through the mock that wraps the real function. *)
Lemma stat_installed d p :
  stat real_stat p {| _patched_osstat := Some d; os_stat := FakeStat RealStat |}
  = (match d !! p with Some r => Returns r | None => real_stat p end,
     {| _patched_osstat := Some d; os_stat := FakeStat RealStat |}).
Proof.
  unfold stat, bind, gets. simpl. unfold bind, gets. simpl.
  by destruct (d !! p).
Qed.

(** X17: [patch_osstat] on a monkeypatch object that had no
    [_patched_osstat] yet, while [os.stat] is the real function.  After any
    run of patches, [os.stat] of a path gives the fields of the last patch
    made for that very path, and what the real [os.stat] gives, its
    exception included, for a path that was never patched; the mock is
    installed by the first patch only, so it wraps the real function
    directly however many patches follow. *)
Theorem patch_osstat_last_wins ps s p :
  _patched_osstat s = None →
  os_stat s = RealStat →
  let s' := (patch_all ps s).2 in
  (patch_all ps s).1 = Returns tt ∧
  stat real_stat p s'
  = (match (list_to_map (reverse ps) : gmap string stat_fields) !! p with
     | Some st => Returns (st_seq st)
     | None => real_stat p
     end, s') ∧
  (ps ≠ [] → os_stat s' = FakeStat RealStat).
Proof.
  intros Hnone Hreal. destruct s as [o f]. simpl in *. subst o f.
  destruct ps as [|[path st] ps].
  - simpl. split_and!; [done | | done]. by unfold stat, bind, gets, lift.
  - assert (patch_all ((path, st) :: ps)
                {| _patched_osstat := None; os_stat := RealStat |}
            = (Returns tt,
               {| _patched_osstat :=
                    Some (foldl (λ d '(path, st), <[path := st_seq st]> d)
                                (<[path := st_seq st]> ∅) ps);
                  os_stat := FakeStat RealStat |})) as ->.
    { change (patch_all ((path, st) :: ps))
        with (bind (patch_osstat path st) (λ _, patch_all ps)).
      unfold bind. rewrite patch_osstat_run. simpl. apply patch_all_installed. }
    cbn [fst snd]. split_and!; [done | | done].
    rewrite stat_installed. f_equal.
    rewrite (inserted_lookup ps (<[path := st_seq st]> ∅) p).
    rewrite reverse_cons, list_to_map_app. simpl.
    rewrite lookup_union.
    destruct ((list_to_map (reverse ps) : gmap string stat_fields) !! p) as [st'|];
      simpl.
    { by destruct (_ !! p). }
    destruct (decide (path = p)) as [->|Hne].
    + by rewrite !lookup_insert_eq.
    + rewrite !lookup_insert_ne by done. by rewrite !lookup_empty.
Qed.

End OsStatProps.

Lemma patch_osstat_last_wins_witness :
  let real_stat := λ _ : string, @Raises (list Z) (KeyError "ENOENT") in
  let s := {| OsStat._patched_osstat := None; OsStat.os_stat := OsStat.RealStat |} in
  let st := {| OsStat.st_mode := 1; OsStat.st_ino := 2; OsStat.st_dev := 3;
               OsStat.st_nlink := 4; OsStat.st_uid := 5; OsStat.st_gid := 6;
               OsStat.st_size := 7; OsStat.st_atime := 8; OsStat.st_mtime := 42;
               OsStat.st_ctime := 9 |} in
  let ps := [("foo/bar", OsStat.defaults); ("baz", OsStat.defaults);
             ("foo/bar", st)] in
  let s' := (OsStat.patch_all ps s).2 in
  (OsStat.patch_all ps s).1 = Returns tt ∧
  OsStat.stat real_stat "foo/bar" s'
    = (Returns [1; 2; 3; 4; 5; 6; 7; 8; 42; 9]%Z, s') ∧
  OsStat.stat real_stat "other" s' = (Raises (KeyError "ENOENT"), s') ∧
  OsStat.os_stat s' = OsStat.FakeStat OsStat.RealStat.
Proof.
  pose proof (patch_osstat_last_wins
                (λ _ : string, @Raises (list Z) (KeyError "ENOENT"))
                [("foo/bar", OsStat.defaults); ("baz", OsStat.defaults);
                 ("foo/bar",
                  {| OsStat.st_mode := 1; OsStat.st_ino := 2; OsStat.st_dev := 3;
                     OsStat.st_nlink := 4; OsStat.st_uid := 5; OsStat.st_gid := 6;
                     OsStat.st_size := 7; OsStat.st_atime := 8;
                     OsStat.st_mtime := 42; OsStat.st_ctime := 9 |})]
                {| OsStat._patched_osstat := None;
                   OsStat.os_stat := OsStat.RealStat |}) as H.
  destruct (H "foo/bar" eq_refl eq_refl) as (Hret & Hfoo & Hmock).
  destruct (H "other" eq_refl eq_refl) as (_ & Hother & _).
  split_and!; [exact Hret | exact Hfoo | exact Hother | by apply Hmock].
Defined.
(** ** TestApp *)

Section TestAppProps.

Import Patcher TestApp.

Variable call_object : ref → M world unit.

Implicit Types (w : world) (self gui l : ref) (names : list string).

Lemma list_ascii_of_string_app (s1 s2 : string) :
  String.list_ascii_of_string (s1 +:+ s2)
  = String.list_ascii_of_string s1 ++ String.list_ascii_of_string s2.
Proof. induction s1 as [|c s1 IH]; simpl; [done | by rewrite IH]. Qed.

(** The name under which [make_gui] stores the view is one that
    [clear_gui_calls] looks at. *)
Lemma endswith_gui (name : string) : endswith (name +:+ "_gui") "_gui" = true.
Proof.
  unfold endswith. apply bool_decide_eq_true. rewrite list_ascii_of_string_app.
  by apply suffix_app_r.
Qed.

(** The loop of [clear_gui_calls] over any list of attribute names of the
    application, from a world that has the namespaces of [w] and the call
    loggers of [w], possibly with other logs. *)
Lemma clear_loop self w names w0 :
  (∀ attr gui, endswith attr "_gui" = true →
     lookup_attr (attrs w) self attr = Some gui →
     loggers w !! gui = None → lookup_attr (attrs w) gui "calls" = None) →
  attrs w0 = attrs w →
  (∀ l, loggers w0 !! l = None ↔ loggers w !! l = None) →
  (∀ attr, attr ∈ names → attr ∈ (default [] (attrs w !! self)).*1) →
  ∃ w',
    for_ names (λ attr,
      if endswith attr "_gui" then
        bind (getattr self attr) (λ gui,
          bind (gets (hasattr_calls gui)) (λ has,
            if has then clear_calls_of call_object gui else ret tt))
      else ret tt) w0 = (Returns tt, w') ∧
    attrs w' = attrs w ∧ next_ref w' = next_ref w0 ∧
    ∀ l, loggers w' !! l =
         if existsb (λ attr, endswith attr "_gui" &&
                             bool_decide (lookup_attr (attrs w) self attr = Some l))
                    names
         then (λ _, CallLogger.mk []) <$> loggers w0 !! l
         else loggers w0 !! l.
Proof.
  intros Htyped. revert w0.
  induction names as [|attr names IH]; intros w0 Hattrs Hdom Hkeys.
  - exists w0. by split_and!.
  - assert (∀ a, a ∈ names → a ∈ (default [] (attrs w !! self)).*1) as Hkeys'
      by (intros a Ha; apply Hkeys; by right).
    cbn [for_ existsb]. unfold bind at 1.
    destruct (endswith attr "_gui") eqn:Hend; cbn [andb orb].
    + assert (is_Some (lookup_attr (attrs w) self attr)) as [gui Hgui].
      { unfold lookup_attr.
        assert (attr ∈ (default [] (attrs w !! self)).*1) as Hin by (apply Hkeys; by left).
        destruct (attrs w !! self) as [d|]; simpl in *.
        - by apply ns_get_is_Some.
        - by apply elem_of_nil in Hin. }
      unfold bind at 1, getattr at 1. rewrite Hattrs, Hgui.
      unfold bind at 1, gets at 1, hasattr_calls.
      destruct (loggers w0 !! gui) as [lg|] eqn:Hlg.
      * rewrite bool_decide_true by eauto. cbn [orb].
        unfold clear_calls_of, bind at 1, gets at 1. rewrite Hlg.
        unfold modify.
        set (w1 := {| attrs := attrs w0;
                      loggers := <[gui := (CallLogger.clear_calls lg).2]> (loggers w0);
                      next_ref := next_ref w0 |}).
        destruct (IH w1) as (w' & Hrun & Ha & Hn & Hl); [done | | done |].
        { intros l. simpl. destruct (decide (gui = l)) as [<-|Hne].
          - rewrite lookup_insert_eq. split; [done|].
            intros Hnone. apply Hdom in Hnone. congruence.
          - rewrite lookup_insert_ne by done. apply Hdom. }
        exists w'. split_and!; [done | done | done |].
        intros l. rewrite Hl. simpl.
        destruct (decide (gui = l)) as [<-|Hne].
        -- rewrite lookup_insert_eq, Hlg. rewrite bool_decide_true by done.
           cbn [orb]. simpl. by destruct (existsb _ _).
        -- rewrite lookup_insert_ne by done.
           rewrite bool_decide_false by congruence. done.
      * assert (loggers w !! gui = None) as Hnone by (by apply Hdom).
        rewrite bool_decide_false by (by intros [? [=]]). cbn [orb].
        rewrite Hattrs, (Htyped attr gui Hend Hgui Hnone).
        rewrite bool_decide_false by (by intros [? [=]]).
        destruct (IH w0) as (w' & Hrun & Ha & Hn & Hl); [done..|].
        exists w'. split_and!; [done | done | done |].
        intros l. rewrite Hl.
        destruct (decide (gui = l)) as [<-|Hne].
        -- rewrite Hlg. by destruct (_ || _), (existsb _ _).
        -- rewrite bool_decide_false by congruence. done.
    + destruct (IH w0) as (w' & Hrun & Ha & Hn & Hl); [done..|].
      exists w'. by split_and!.
Qed.

(** X18: [clear_gui_calls], when every object bound to an attribute named
    [..._gui] that shows a [calls] attribute is a call logger.  The method
    returns, binds nothing and creates nothing; it empties the log of each
    call logger that some [..._gui] attribute of the application refers
    to, and leaves every other log as it is. *)
Theorem clear_gui_calls_clears self w :
  (∀ attr gui, endswith attr "_gui" = true →
     lookup_attr (attrs w) self attr = Some gui →
     loggers w !! gui = None → lookup_attr (attrs w) gui "calls" = None) →
  ∃ w',
    clear_gui_calls call_object self w = (Returns tt, w') ∧
    attrs w' = attrs w ∧ next_ref w' = next_ref w ∧
    (∀ attr l, endswith attr "_gui" = true →
       lookup_attr (attrs w) self attr = Some l →
       is_Some (loggers w !! l) →
       loggers w' !! l = Some (CallLogger.mk [])) ∧
    (∀ l, (∀ attr, endswith attr "_gui" = true →
                   lookup_attr (attrs w) self attr ≠ Some l) →
          loggers w' !! l = loggers w !! l).
Proof.
  intros Htyped.
  destruct (clear_loop self w (dir_ self w) w Htyped eq_refl)
    as (w' & Hrun & Ha & Hn & Hl).
  { done. }
  { intros attr Hin. unfold dir_ in Hin. by rewrite merge_sort_Permutation in Hin. }
  exists w'. split_and!; [| done | done | |].
  - unfold clear_gui_calls, bind at 1, gets at 1. exact Hrun.
  - intros attr l Hend Hattr [lg Hlg]. rewrite Hl, Hlg.
    assert (existsb (λ attr, endswith attr "_gui" &&
                      bool_decide (lookup_attr (attrs w) self attr = Some l))
                    (dir_ self w) = true) as ->; [|done].
    apply existsb_exists. exists attr. split.
    + apply list_elem_of_In. unfold dir_. rewrite merge_sort_Permutation.
      unfold lookup_attr in Hattr.
      destruct (attrs w !! self) as [d|]; simpl in *; [|done].
      clear -Hattr. induction d as [|[k x] d IH]; simpl in *; [done|].
      destruct (decide (k = attr)) as [->|Hne]; [by left | right; by apply IH].
    + rewrite Hend. by rewrite bool_decide_true.
  - intros l Hnot. rewrite Hl.
    destruct (existsb _ _) eqn:Hex; [|done].
    apply existsb_exists in Hex as (attr & _ & Hand).
    apply andb_prop in Hand as [Hend Hattr%bool_decide_eq_true].
    by destruct (Hnot attr Hend).
Qed.

Lemma append_gui_neq (name : string) : name +:+ "_gui" ≠ name.
Proof.
  intros Heq. apply (f_equal String.list_ascii_of_string) in Heq.
  rewrite list_ascii_of_string_app in Heq.
  apply (f_equal length) in Heq. rewrite length_app in Heq. simpl in Heq. lia.
Qed.

(** X19: [make_gui] with the default view, parent and holder, on an
    application that has [mw], when the constructor returns.  The view is
    a new call logger with an empty log; it is bound to [<name>_gui], a
    name that [clear_gui_calls] looks at, before the constructor runs on
    the view and [mw]; the constructed object is then bound to [<name>]
    and returned, and this last assignment leaves [<name>_gui] as the
    constructor left it. *)
Theorem make_gui_defaults self name (class_ : ref → ref → M world ref)
    w mw gui w3 :
  lookup_attr (attrs w) self "mw" = Some mw →
  let view := next_ref w in
  let w2 := (setattr self (name +:+ "_gui") view (new_logger w).2).2 in
  class_ view mw w2 = (Returns gui, w3) →
  let w4 := (setattr self name gui w3).2 in
  make_gui self name class_ None None None w = (Returns gui, w4) ∧
  loggers w2 !! view = Some (CallLogger.mk []) ∧
  lookup_attr (attrs w2) self (name +:+ "_gui") = Some view ∧
  endswith (name +:+ "_gui") "_gui" = true ∧
  lookup_attr (attrs w4) self name = Some gui ∧
  lookup_attr (attrs w4) self (name +:+ "_gui")
  = lookup_attr (attrs w3) self (name +:+ "_gui").
Proof.
  intros Hmw view w2 Hclass w4.
  split_and!.
  - unfold make_gui, bind at 1, new_logger. unfold bind at 1, getattr at 1.
    cbn [attrs]. rewrite Hmw. cbn [default]. unfold bind at 1.
    unfold setattr at 1, modify at 1. unfold bind at 1.
    change (class_ (next_ref w) mw _) with (class_ view mw w2).
    rewrite Hclass. unfold bind, ret. by cbn.
  - simpl. by rewrite lookup_insert_eq.
  - simpl. rewrite lookup_attr_write. by rewrite decide_True.
  - apply endswith_gui.
  - simpl. rewrite lookup_attr_write. by rewrite decide_True.
  - simpl. rewrite lookup_attr_write. rewrite decide_False; [done|].
    intros [_ Heq]. symmetry in Heq. by apply append_gui_neq in Heq.
Qed.

(** X20: [make_gui] without a parent on an application that has no [mw]
    raises [AttributeError] for [mw]: no attribute is bound and the
    constructor does not run; a default view has been created by then but
    nothing refers to it. *)
Theorem make_gui_without_mw self name (class_ : ref → ref → M world ref)
    (view holder : option ref) w :
  lookup_attr (attrs w) self "mw" = None →
  (make_gui self name class_ view None holder w).1 = Raises (AttributeError "mw") ∧
  attrs (make_gui self name class_ view None holder w).2 = attrs w.
Proof.
  intros Hmw. unfold make_gui, bind, getattr, new_logger, ret.
  destruct view as [v|]; simpl; by rewrite Hmw.
Qed.

End TestAppProps.

Lemma clear_gui_calls_clears_witness :
  let call_object := λ _ : Patcher.ref, @ret TestApp.world unit tt in
  let w := TestApp.example_world in
  (∀ attr gui, endswith attr "_gui" = true →
     Patcher.lookup_attr (TestApp.attrs w) 1 attr = Some gui →
     TestApp.loggers w !! gui = None →
     Patcher.lookup_attr (TestApp.attrs w) gui "calls" = None) ∧
  ∃ w',
    TestApp.clear_gui_calls call_object 1 w = (Returns tt, w') ∧
    TestApp.attrs w' = TestApp.attrs w ∧
    TestApp.next_ref w' = TestApp.next_ref w ∧
    (∀ attr l, endswith attr "_gui" = true →
       Patcher.lookup_attr (TestApp.attrs w) 1 attr = Some l →
       is_Some (TestApp.loggers w !! l) →
       TestApp.loggers w' !! l = Some (CallLogger.mk [])) ∧
    (∀ l, (∀ attr, endswith attr "_gui" = true →
                   Patcher.lookup_attr (TestApp.attrs w) 1 attr ≠ Some l) →
          TestApp.loggers w' !! l = TestApp.loggers w !! l).
Proof.
  assert (∀ attr gui, endswith attr "_gui" = true →
            Patcher.lookup_attr (TestApp.attrs TestApp.example_world) 1 attr = Some gui →
            TestApp.loggers TestApp.example_world !! gui = None →
            Patcher.lookup_attr (TestApp.attrs TestApp.example_world) gui "calls" = None)
    as Htyped.
  { intros attr gui _ _ _. unfold Patcher.lookup_attr. simpl.
    destruct (decide (gui = 1)) as [->|Hne]; [reflexivity|].
    by rewrite lookup_singleton_ne. }
  split; [exact Htyped|].
  exact (clear_gui_calls_clears (λ _, ret tt) 1 TestApp.example_world Htyped).
Defined.

(** On the example application the view of [table] is emptied, and the
    logger that no [..._gui] attribute refers to keeps its log. *)
Lemma clear_gui_calls_example :
  TestApp.loggers
    (TestApp.clear_gui_calls (λ _, ret tt) 1 TestApp.example_world).2
  = {[ 10 := CallLogger.mk []; 11 := CallLogger.mk ["show"] ]}.
Proof. by vm_compute. Qed.

Lemma make_gui_defaults_witness :
  let w := {| TestApp.attrs := {[ 1 := [("mw", 4)] ]};
              TestApp.loggers := ∅; TestApp.next_ref := 10 |} in
  let class_ := λ _ _ : Patcher.ref, @ret TestApp.world Patcher.ref 5 in
  let w2 := (TestApp.setattr 1 "table_gui" 10 (TestApp.new_logger w).2).2 in
  let w4 := (TestApp.setattr 1 "table" 5 w2).2 in
  (Patcher.lookup_attr (TestApp.attrs w) 1 "mw" = Some 4 ∧
   class_ 10 4 w2 = (Returns 5, w2)) ∧
  TestApp.make_gui 1 "table" class_ None None None w = (Returns 5, w4) ∧
  TestApp.loggers w2 !! 10 = Some (CallLogger.mk []) ∧
  Patcher.lookup_attr (TestApp.attrs w2) 1 "table_gui" = Some 10 ∧
  endswith "table_gui" "_gui" = true ∧
  Patcher.lookup_attr (TestApp.attrs w4) 1 "table" = Some 5 ∧
  Patcher.lookup_attr (TestApp.attrs w4) 1 "table_gui"
  = Patcher.lookup_attr (TestApp.attrs w2) 1 "table_gui".
Proof.
  split; [by split|].
  exact (make_gui_defaults 1 "table" (λ _ _, ret 5)
           {| TestApp.attrs := {[ 1 := [("mw", 4)] ]};
              TestApp.loggers := ∅; TestApp.next_ref := 10 |}
           4 5 _ eq_refl eq_refl).
Defined.

Lemma make_gui_without_mw_witness :
  let w := {| TestApp.attrs := {[ 1 := [("other", 4)] ]};
              TestApp.loggers := ∅; TestApp.next_ref := 10 |} in
  let class_ := λ _ _ : Patcher.ref, @ret TestApp.world Patcher.ref 5 in
  Patcher.lookup_attr (TestApp.attrs w) 1 "mw" = None ∧
  (TestApp.make_gui 1 "table" class_ None None None w).1
    = Raises (AttributeError "mw") ∧
  TestApp.attrs (TestApp.make_gui 1 "table" class_ None None None w).2
    = TestApp.attrs w.
Proof.
  split; [reflexivity|].
  exact (make_gui_without_mw 1 "table" (λ _ _, ret 5) None None
           {| TestApp.attrs := {[ 1 := [("other", 4)] ]};
              TestApp.loggers := ∅; TestApp.next_ref := 10 |} eq_refl).
Defined.

(** ** with_tmpdir *)

Section TmpDirProps.

Import TmpDir.

Context {FS V K A : Type}.
Variable mkdtemp : M FS string.
Variable exists_ : string → M FS bool.
Variable rmtree : string → M FS unit.
Variable of_path : string → V.

(** X21: the wrapper of [with_tmpdir], for an [io.exists] that only looks
    and an [io.rmtree] that removes what it is given.  When the directory
    was made, the test receives its path as one more positional argument
    at the end; afterwards the directory does not exist, whether the test
    returned or raised, and the outcome of the test is the outcome of the
    wrapper.  When [mkdtemp] itself raised, the test does not run and the
    [finally] clause, which reads a variable that was never bound, raises
    [UnboundLocalError] in place of the error of [mkdtemp]. *)
Theorem with_tmpdir_cleans_up (func : list V → K → M FS A) args kwargs fs :
  (∀ p fs0, ∃ b, exists_ p fs0 = (Returns b, fs0)) →
  (∀ p fs0, exists_ p fs0 = (Returns true, fs0) →
            ∃ fs', rmtree p fs0 = (Returns tt, fs') ∧
                   exists_ p fs' = (Returns false, fs')) →
  match mkdtemp fs with
  | (Returns tmppath, fs1) =>
      ∃ fs',
        with_tmpdir mkdtemp exists_ rmtree of_path func args kwargs fs
        = (Finished (func (args ++ [of_path tmppath]) kwargs fs1).1, fs') ∧
        exists_ tmppath fs' = (Returns false, fs')
  | (Raises e, fs1) =>
      with_tmpdir mkdtemp exists_ rmtree of_path func args kwargs fs
      = (UnboundLocalError "tmppath", fs1)
  end.
Proof.
  intros Hex Hrm. unfold with_tmpdir.
  destruct (mkdtemp fs) as [[tmppath|e] fs1]; [|done].
  destruct (func (args ++ [of_path tmppath]) kwargs fs1) as [r fs2]. cbn [fst].
  destruct (Hex tmppath fs2) as [[|] Hb]; rewrite Hb.
  - destruct (Hrm tmppath fs2 Hb) as (fs' & -> & Hgone). by exists fs'.
  - by exists fs2.
Qed.

End TmpDirProps.

Lemma with_tmpdir_cleans_up_witness :
  let mkdtemp : M (gset string) string :=
    λ fs, (Returns "tmp0", {["tmp0"]} ∪ fs) in
  let exists_ : string → M (gset string) bool :=
    λ p fs, (Returns (bool_decide (p ∈ fs)), fs) in
  let rmtree : string → M (gset string) unit :=
    λ p fs, (Returns tt, fs ∖ {[p]}) in
  let func : list string → unit → M (gset string) nat :=
    λ args _ fs, (Raises ValueError, fs) in
  ((∀ p fs0, ∃ b, exists_ p fs0 = (Returns b, fs0)) ∧
   (∀ p fs0, exists_ p fs0 = (Returns true, fs0) →
             ∃ fs', rmtree p fs0 = (Returns tt, fs') ∧
                    exists_ p fs' = (Returns false, fs'))) ∧
  ∃ fs',
    TmpDir.with_tmpdir mkdtemp exists_ rmtree (λ p, p) func ["a"] tt ∅
    = (TmpDir.Finished (Raises ValueError), fs') ∧
    exists_ "tmp0" fs' = (Returns false, fs').
Proof.
  assert (∀ (p : string) (fs0 : gset string),
            ∃ b, (Returns (bool_decide (p ∈ fs0)), fs0) = (Returns b, fs0)) as Hex
    by (intros; by eexists).
  assert (∀ (p : string) (fs0 : gset string),
            (Returns (bool_decide (p ∈ fs0)), fs0) = (Returns true, fs0) →
            ∃ fs', (Returns tt, fs0 ∖ {[p]}) = (Returns tt, fs') ∧
                   (Returns (bool_decide (p ∈ fs')), fs') = (Returns false, fs'))
    as Hrm.
  { intros p fs0 _. eexists. split; [reflexivity|].
    rewrite bool_decide_false; [done|].
    rewrite elem_of_difference, elem_of_singleton. tauto. }
  split; [by split|].
  exact (with_tmpdir_cleans_up
           (λ fs, (Returns "tmp0", {["tmp0"]} ∪ fs))
           (λ p fs, (Returns (bool_decide (p ∈ fs)), fs))
           (λ p fs, (Returns tt, fs ∖ {[p]}))
           (λ p, p) (λ args _ fs, (Raises ValueError, fs)) ["a"] tt ∅ Hex Hrm).
Defined.
